(** * advanced-ssh-config: configuration resolution engine and hook dispatcher

    A shallow embedding of [pkg/config] (the [Config] methods of the
    resolution engine, the staleness detector and the serializer) and of
    [pkg/hooks] (the hook dispatcher), together with the properties the
    specification states about them.

    Conventions of the embedding:
    - a Go [map[string]T] is a [gmap string T]; the order in which a
      [range] statement visits a map is not fixed by Go, so every loop over
      a map asks an explicit iteration oracle ([MapOrder]) for the order;
    - a Go [(T, error)] result is a [result T]; where the call can also
      panic or recurse without bound it is an [outcome T], in which a
      [panic] and the exhaustion of the fuel are outcomes of their own;
    - recursion that Go does not bound ([computeHost] through
      [getHostByPath]) is bounded by a fuel argument;
    - functions and constants declared in files of the repository that are
      not covered here (host.go, pkg/utils, pkg/version, the hook drivers)
      are section variables, or are defined from the specification where
      a property needs their behaviour. *)

From Stdlib Require Import String Ascii.
From stdpp Require Import gmap strings list fin_maps sorting.

Local Open Scope stdpp_scope.

(** ** Errors and results *)

(** Go [error] values met in the code: [path.ErrBadPattern] and the values
    built by [fmt.Errorf], kept as their message. *)
Inductive error : Type :=
  | ErrBadPattern
  | Errorf (msg : string).

Global Instance error_eq_dec : EqDecision error.
Proof. solve_decision. Defined.

(** A Go result [(T, error)]: the value, or the non-nil error. *)
Inductive result (A : Type) : Type :=
  | Success (a : A)
  | Failure (e : error).
Global Arguments Success {A} a.
Global Arguments Failure {A} e.

(** Outcome of a call that can also panic or recurse without bound: a
    returned value, a returned [error], a [panic], or no outcome within the
    fuel given. *)
Inductive outcome (A : Type) : Type :=
  | Ok (a : A)
  | Err (e : error)
  | Panic (e : error)
  | OutOfFuel.
Global Arguments Ok {A} a.
Global Arguments Err {A} e.
Global Arguments Panic {A} e.
Global Arguments OutOfFuel {A}.

Global Instance outcome_bind : MBind outcome := fun A B k r =>
  match r with
  | Ok a => k a
  | Err e => Err e
  | Panic e => Panic e
  | OutOfFuel => OutOfFuel
  end.

Global Instance outcome_fmap : FMap outcome := fun A B f r =>
  match r with
  | Ok a => Ok (f a)
  | Err e => Err e
  | Panic e => Panic e
  | OutOfFuel => OutOfFuel
  end.

(** The line feed that [Fprintln] appends. *)
Definition newline : string := String "010" "".

(** ** The Go standard library functions the code calls *)

Module gostrings.

Fixpoint drop (n : nat) (s : string) : string :=
  match n, s with
  | S k, String _ s' => drop k s'
  | _, _ => s
  end.

(** [strings.Index]-style search for the first occurrence of a non-empty
    separator: the text before it and the text after it. *)
Fixpoint cut (sep s : string) : option (string * string) :=
  match s with
  | "" => None
  | String c s' =>
      if String.prefix sep s then Some ("", drop (String.length sep) s)
      else match cut sep s' with
           | Some (before, after) => Some (String c before, after)
           | None => None
           end
  end.

(** [strings.SplitN(s, sep, 2)] for a non-empty [sep]. *)
Definition SplitN2 (s sep : string) : list string :=
  match cut sep s with
  | Some (before, after) => [before; after]
  | None => [s]
  end.

(** Scan of [strings.Split]: [skip] counts the bytes of a separator
    still to be passed over. *)
Fixpoint split_go (sep : string) (skip : nat) (s : string) : list string :=
  match s with
  | "" => [""]
  | String c s' =>
      match skip with
      | S k => split_go sep k s'
      | 0 =>
          if String.prefix sep s
          then "" :: split_go sep (String.length sep - 1) s'
          else match split_go sep 0 s' with
               | p :: ps => String c p :: ps
               | [] => [String c ""]
               end
      end
  end.

Fixpoint explode (s : string) : list string :=
  match s with
  | "" => []
  | String c s' => String c "" :: explode s'
  end.

(** [strings.Split(s, sep)]. *)
Definition Split (s sep : string) : list string :=
  match sep with
  | "" => explode s
  | _ => split_go sep 0 s
  end.

(** [strings.Join(elems, sep)]. *)
Fixpoint Join (elems : list string) (sep : string) : string :=
  match elems with
  | [] => ""
  | [e] => e
  | e :: rest => e +:+ sep +:+ Join rest sep
  end.

Fixpoint replace_go (old new : string) (skip : nat) (s : string) : string :=
  match s with
  | "" => ""
  | String c s' =>
      match skip with
      | S k => replace_go old new k s'
      | 0 =>
          if String.prefix old s
          then new +:+ replace_go old new (String.length old - 1) s'
          else String c (replace_go old new 0 s')
      end
  end.

Fixpoint intersperse (new s : string) : string :=
  match s with
  | "" => new
  | String c s' => new +:+ String c (intersperse new s')
  end.

(** [strings.Replace(s, old, new, -1)]: every non-overlapping occurrence
    of [old], from the left. *)
Definition Replace (s old new : string) : string :=
  match old with
  | "" => intersperse new s
  | _ => replace_go old new 0 s
  end.

(** [strings.IndexByte(s, c) >= 0]. *)
Fixpoint contains_byte (c : ascii) (s : string) : bool :=
  match s with
  | "" => false
  | String d s' => if decide (c = d) then true else contains_byte c s'
  end.

End gostrings.

Module path.

(** One term of a pattern, after the grammar in the documentation of
    [path.Match]:
    '*' any sequence of non-'/' characters; '?' any single non-'/'
    character; '[' [ '^' ] { range } ']' a non-empty character class;
    c or '\\' c the character c. *)
Inductive term : Type :=
  | TStar
  | TAny
  | TChar (c : ascii)
  | TClass (negated : bool) (ranges : list (ascii * ascii)).

(** A pattern byte: as written, or escaped by a backslash. *)
Inductive tok : Type :=
  | Raw (c : ascii)
  | Esc (c : ascii).

(** A backslash takes the next byte literally; a pattern that ends in a
    backslash is malformed. *)
Fixpoint unescape (p : string) : option (list tok) :=
  match p with
  | "" => Some []
  | String "\" "" => None
  | String "\" (String c p') => cons (Esc c) <$> unescape p'
  | String c p' => cons (Raw c) <$> unescape p'
  end.

Definition tok_char (t : tok) : ascii :=
  match t with Raw c | Esc c => c end.

(** [getEsc]: the byte of a range bound; a raw '-' or ']' cannot be one. *)
Definition bound (t : tok) : option ascii :=
  match t with
  | Raw "-" | Raw "]" => None
  | Raw c | Esc c => Some c
  end%char.

(** The terms of a pattern. [cls] is [None] outside a character class;
    inside one it holds the negation flag and the ranges read so far. The
    closing ']' must come after at least one range, and a pattern that
    ends inside a class is malformed. *)
Fixpoint terms (cls : option (bool * list (ascii * ascii))) (ts : list tok)
    {struct ts} : option (list term) :=
  match cls with
  | None =>
      match ts with
      | [] => Some []
      | Raw "*"%char :: rest => cons TStar <$> terms None rest
      | Raw "?"%char :: rest => cons TAny <$> terms None rest
      | Raw "["%char :: Raw "^"%char :: body => terms (Some (true, [])) body
      | Raw "["%char :: body => terms (Some (false, [])) body
      | t :: rest => cons (TChar (tok_char t)) <$> terms None rest
      end
  | Some (negated, rs) =>
      match ts with
      | [] => None
      | Raw "]"%char :: rest =>
          match rs with
          | [] => None
          | _ :: _ => cons (TClass negated rs) <$> terms None rest
          end
      | lo :: Raw "-"%char :: hi :: rest =>
          match bound lo, bound hi with
          | Some l, Some h => terms (Some (negated, rs ++ [(l, h)])) rest
          | _, _ => None
          end
      | lo :: rest =>
          match bound lo with
          | Some l => terms (Some (negated, rs ++ [(l, l)])) rest
          | None => None
          end
      end
  end.

Definition parse (pattern : string) : option (list term) :=
  ts ← unescape pattern; terms None ts.

Definition in_range (c : ascii) (r : ascii * ascii) : bool :=
  (nat_of_ascii r.1 <=? nat_of_ascii c) && (nat_of_ascii c <=? nat_of_ascii r.2).

Definition not_slash (c : ascii) : bool :=
  if decide (c = "/"%char) then false else true.

(** Whether the whole of [name] is matched by the terms. *)
Fixpoint matches (ts : list term) (name : string) : bool :=
  match ts with
  | [] => if name is "" then true else false
  | TStar :: ts' =>
      (fix skip (n : string) : bool :=
         matches ts' n ||
         match n with
         | "" => false
         | String c n' => not_slash c && skip n'
         end) name
  | TAny :: ts' =>
      match name with
      | String c n' => not_slash c && matches ts' n'
      | "" => false
      end
  | TChar d :: ts' =>
      match name with
      | String c n' => bool_decide (c = d) && matches ts' n'
      | "" => false
      end
  | TClass negated rs :: ts' =>
      match name with
      | String c n' => xorb (existsb (in_range c) rs) negated && matches ts' n'
      | "" => false
      end
  end.

(** [path.Match(pattern, name)]: the pair [(matched, err)]. The only
    error is [ErrBadPattern], returned when the pattern is malformed. *)
Definition Match (pattern name : string) : bool * option error :=
  match parse pattern with
  | Some ts => (matches ts name, None)
  | None => (false, Some ErrBadPattern)
  end.

End path.

(** ** Iteration order of Go maps *)

(** The order in which [for k, v := range m] visits the entries of a map:
    some enumeration of the entries, chosen by the runtime. *)
Record MapOrder : Type := {
  range : ∀ V : Type, gmap string V → list (string * V);
  range_perm : ∀ (V : Type) (m : gmap string V), range V m ≡ₚ map_to_list m
}.
Global Arguments range _ {V} _.

Definition order_forward : MapOrder :=
  {| range := λ V m, map_to_list m;
     range_perm := λ V m, reflexivity (map_to_list m) |}.

Program Definition order_backward : MapOrder :=
  {| range := λ V m, reverse (map_to_list m) |}.
Next Obligation. intros V m. apply reverse_Permutation. Qed.

(** ** Package config: data model *)

Module config.

(** The fields of [Host] that the code and the data model of the
    specification name. [inherited] is the visited-set of [computeHost]. *)
Record Host : Type := {
  HostName : string;
  Aliases : list string;
  Inherits : list string;
  Gateways : list string;
  pattern : string;
  name : string;
  inputName : string;
  isDefault : bool;
  isTemplate : bool;
  inherited : gset string;
  knownHosts : list string
}.

Definition set_HostName (v : string) (h : Host) : Host :=
  {| HostName := v; Aliases := Aliases h; Inherits := Inherits h;
     Gateways := Gateways h; pattern := pattern h; name := name h;
     inputName := inputName h; isDefault := isDefault h;
     isTemplate := isTemplate h; inherited := inherited h;
     knownHosts := knownHosts h |}.

Definition set_Gateways (v : list string) (h : Host) : Host :=
  {| HostName := HostName h; Aliases := Aliases h; Inherits := Inherits h;
     Gateways := v; pattern := pattern h; name := name h;
     inputName := inputName h; isDefault := isDefault h;
     isTemplate := isTemplate h; inherited := inherited h;
     knownHosts := knownHosts h |}.

Definition set_name (v : string) (h : Host) : Host :=
  {| HostName := HostName h; Aliases := Aliases h; Inherits := Inherits h;
     Gateways := Gateways h; pattern := pattern h; name := v;
     inputName := inputName h; isDefault := isDefault h;
     isTemplate := isTemplate h; inherited := inherited h;
     knownHosts := knownHosts h |}.

Definition set_inherited (v : gset string) (h : Host) : Host :=
  {| HostName := HostName h; Aliases := Aliases h; Inherits := Inherits h;
     Gateways := Gateways h; pattern := pattern h; name := name h;
     inputName := inputName h; isDefault := isDefault h;
     isTemplate := isTemplate h; inherited := v;
     knownHosts := knownHosts h |}.

Definition set_knownHosts (v : list string) (h : Host) : Host :=
  {| HostName := HostName h; Aliases := Aliases h; Inherits := Inherits h;
     Gateways := Gateways h; pattern := pattern h; name := name h;
     inputName := inputName h; isDefault := isDefault h;
     isTemplate := isTemplate h; inherited := inherited h;
     knownHosts := v |}.

(** The zero value [Host{}]. *)
Definition zeroHost : Host :=
  {| HostName := ""; Aliases := []; Inherits := []; Gateways := [];
     pattern := ""; name := ""; inputName := ""; isDefault := false;
     isTemplate := false; inherited := ∅; knownHosts := [] |}.

(** Modelled from the spec: [NewHost] is declared in host.go, a file
    outside this development; it returns a blank Host carrying the given
    name. *)
Definition NewHost (nm : string) : Host := set_name nm zeroHost.

(** Modelled from the spec: [Host.ApplyDefaults] is declared in host.go,
    a file outside this development. Zero-value fill: an attribute of the
    receiver that is still at its zero value takes the value of the
    fallback, an attribute already set is never overwritten. The
    attributes are the target address, the aliases, the parents and the
    gateways; the identifying and internal fields are left alone. *)
Definition ApplyDefaults (h defaults : Host) : Host :=
  {| HostName := if decide (HostName h = "") then HostName defaults else HostName h;
     Aliases := if Aliases h is [] then Aliases defaults else Aliases h;
     Inherits := if Inherits h is [] then Inherits defaults else Inherits h;
     Gateways := if Gateways h is [] then Gateways defaults else Gateways h;
     pattern := pattern h; name := name h; inputName := inputName h;
     isDefault := isDefault h; isTemplate := isTemplate h;
     inherited := inherited h; knownHosts := knownHosts h |}.

(** Modelled from the spec: [Host.AddKnownHost] is declared in host.go,
    a file outside this development; recording a name adds it to the
    in-memory set of the host. *)
Definition AddKnownHost (target : string) (h : Host) : Host :=
  set_knownHosts (knownHosts h ++ [target]) h.

(** [Config]. [Hosts] and [Templates] are [map[string]*Host]: the entries
    are reached through pointers and updated in place, which is an update
    of the map here. *)
Record Config : Type := {
  Hosts : gmap string Host;
  Templates : gmap string Host;
  Defaults : Host;
  Includes : list string;
  ASSHKnownHostFile : string;
  ASSHBinaryPath : string;
  includedFiles : gmap string bool;
  sshConfigPath : string
}.

Definition set_Hosts (v : gmap string Host) (c : Config) : Config :=
  {| Hosts := v; Templates := Templates c; Defaults := Defaults c;
     Includes := Includes c; ASSHKnownHostFile := ASSHKnownHostFile c;
     ASSHBinaryPath := ASSHBinaryPath c; includedFiles := includedFiles c;
     sshConfigPath := sshConfigPath c |}.

Definition set_Defaults (v : Host) (c : Config) : Config :=
  {| Hosts := Hosts c; Templates := Templates c; Defaults := v;
     Includes := Includes c; ASSHKnownHostFile := ASSHKnownHostFile c;
     ASSHBinaryPath := ASSHBinaryPath c; includedFiles := includedFiles c;
     sshConfigPath := sshConfigPath c |}.

(** [New()]. *)
Definition New : Config :=
  {| Hosts := ∅; Templates := ∅; Defaults := zeroHost; Includes := [];
     ASSHKnownHostFile := "~/.ssh/assh_known_hosts"; ASSHBinaryPath := "";
     includedFiles := ∅; sshConfigPath := "~/.ssh/config" |}.

(** *** Host lookup and inheritance *)

(** Outcome of a scan over patterns. *)
Inductive scan (A : Type) : Type :=
  | Found (a : A)
  | Failed (e : error)
  | NotFound.
Global Arguments Found {A} a.
Global Arguments Failed {A} e.
Global Arguments NotFound {A}.

(** The inner loop of [getHostByName] over the patterns of one entry: the
    first pattern that errors or matches decides. *)
Fixpoint matchPatterns {A} (patterns : list string) (nm : string) (a : A) : scan A :=
  match patterns with
  | [] => NotFound
  | pat :: rest =>
      match path.Match pat nm with
      | (_, Some err) => Failed err
      | (true, None) => Found a
      | (false, None) => matchPatterns rest nm a
      end
  end.

(** [for origPattern, host := range c.Hosts], each host tried under its
    key followed by its aliases. *)
Fixpoint scanHosts (entries : list (string * Host)) (nm : string) : scan Host :=
  match entries with
  | [] => NotFound
  | (origPattern, host) :: rest =>
      match matchPatterns (origPattern :: Aliases host) nm host with
      | NotFound => scanHosts rest nm
      | decided => decided
      end
  end.

(** [for pattern, template := range c.Templates]. *)
Fixpoint scanTemplates (entries : list (string * Host)) (nm : string) : scan Host :=
  match entries with
  | [] => NotFound
  | (pat, template) :: rest =>
      match matchPatterns [pat] nm template with
      | NotFound => scanTemplates rest nm
      | decided => decided
      end
  end.

Section Resolution.

(** The order of the map iterations of this run. *)
Variable ord : MapOrder.

(** [Host.ExpandString] is declared in host.go, a file outside this
    development: placeholder substitution in a string, with the attributes
    of the host as context. *)
Variable ExpandString : Host → string → string.

(** [getHostByName], with the call to [computeHost] left open. *)
Definition getHostByName_with (compute_host : Host → string → bool → outcome Host)
    (c : Config) (nm : string) (safe compute allowTemplate : bool) : outcome Host :=
  match Hosts c !! nm with
  | Some host => compute_host host nm compute
  | None =>
      match scanHosts (range ord (Hosts c)) nm with
      | Found host => compute_host host nm compute
      | Failed err => Err err
      | NotFound =>
          match (if allowTemplate
                 then scanTemplates (range ord (Templates c)) nm
                 else NotFound) with
          | Found template => compute_host template nm compute
          | Failed err => Err err
          | NotFound =>
              if safe
              then compute_host (set_HostName nm (NewHost nm)) nm compute
              else Err (Errorf ("no such host: " +:+ nm))
          end
      end
  end.

(** [getHostByPath], with the call to [computeHost] left open. *)
Definition getHostByPath_with (compute_host : Host → string → bool → outcome Host)
    (c : Config) (path : string) (safe compute allowTemplate : bool) : outcome Host :=
  match gostrings.SplitN2 path "/" with
  | [] => Panic (Errorf "index out of range")
  | part0 :: parts =>
      host ← getHostByName_with compute_host c part0 safe compute allowTemplate;
      match parts with
      | part1 :: _ => Ok (set_Gateways [part1] host)
      | [] => Ok host
      end
  end.

(** The loop of [computeHost] over [host.Inherits]. *)
Fixpoint inheritLoop (resolve : string → outcome Host) (parents : list string)
    (computedHost : Host) : outcome Host :=
  match parents with
  | [] => Ok computedHost
  | parent :: rest =>
      if decide (parent ∈ inherited computedHost)
      then inheritLoop resolve rest computedHost
      else
        let computedHost :=
          set_inherited ({[parent]} ∪ inherited computedHost) computedHost in
        match resolve parent with
        | Ok target => inheritLoop resolve rest (ApplyDefaults computedHost target)
        | Err _ => inheritLoop resolve rest computedHost
        | Panic e => Panic e
        | OutOfFuel => OutOfFuel
        end
  end.

(** The [fullCompute] part of [computeHost]. *)
Definition applyFullCompute (config : Config) (nm : string) (computedHost : Host) : Host :=
  let computedHost := ApplyDefaults computedHost (Defaults config) in
  let computedHost :=
    if decide (HostName computedHost = "")
    then set_HostName nm computedHost else computedHost in
  let hostname := gostrings.Replace (HostName computedHost) "%h" "%n" in
  let pat := gostrings.Replace hostname "%n" "*" in
  if (path.Match pat (inputName computedHost)).1
  then set_HostName (inputName computedHost) computedHost
  else set_HostName (ExpandString computedHost hostname) computedHost.

(** [computeHost(host, config, name, fullCompute)] for a non-nil [host]
    (the loader replaces nil entries, and the function dereferences
    [host] unconditionally). Each call to [getHostByPath] enters
    [computeHost] again, which costs one unit of fuel. *)
Fixpoint computeHost (fuel : nat) (host : Host) (config : Config)
    (nm : string) (fullCompute : bool) : outcome Host :=
  match fuel with
  | 0 => OutOfFuel
  | S fuel' =>
      let computedHost := set_inherited {[nm]} (set_name nm host) in
      computedHost ←
        inheritLoop
          (λ parent,
             getHostByPath_with (λ h n fc, computeHost fuel' h config n fc)
               config parent false false true)
          (Inherits host) computedHost;
      Ok (if fullCompute
          then applyFullCompute config nm computedHost
          else computedHost)
  end.

Definition getHostByName (fuel : nat) (c : Config) (nm : string)
    (safe compute allowTemplate : bool) : outcome Host :=
  getHostByName_with (λ h n fc, computeHost fuel h c n fc)
    c nm safe compute allowTemplate.

Definition getHostByPath (fuel : nat) (c : Config) (path : string)
    (safe compute allowTemplate : bool) : outcome Host :=
  getHostByPath_with (λ h n fc, computeHost fuel h c n fc)
    c path safe compute allowTemplate.

(** A returned error becomes a panic. *)
Definition panic_on_err {A} (r : outcome A) : outcome A :=
  match r with
  | Err err => Panic err
  | other => other
  end.

Definition GetGatewaySafe (fuel : nat) (c : Config) (nm : string) : outcome Host :=
  panic_on_err (getHostByName fuel c nm true true false).


Definition GetHostSafe (fuel : nat) (c : Config) (nm : string) : outcome Host :=
  panic_on_err (getHostByPath fuel c nm true true false).

End Resolution.

(** *** Files *)

(** The part of the file system the code looks at: the lines of the text
    files, the modification times that [os.Stat] reports (no entry: the
    call fails), the paths that cannot be opened for writing, and the
    time a write stamps on a file. *)
Record FileSystem : Type := {
  lines : gmap string (list string);
  modTime : gmap string Z;
  denied : gset string;
  clock : Z
}.

(** [os.Stat(path)] followed by [ModTime()]. *)
Definition Stat (fs : FileSystem) (path : string) : result Z :=
  match modTime fs !! path with
  | Some t => Success t
  | None => Failure (Errorf ("stat " +:+ path +:+ ": no such file or directory"))
  end.

(** [os.OpenFile(path, O_RDWR|O_APPEND|O_CREATE, 0660)], [Fprintln] of one
    line and [Close]: [None] when the file cannot be opened. *)
Definition appendLine (fs : FileSystem) (path line : string) : option FileSystem :=
  if decide (path = "" ∨ path ∈ denied fs) then None
  else Some {| lines := <[path := default [] (lines fs !! path) ++ [line]]> (lines fs);
               modTime := <[path := clock fs]> (modTime fs);
               denied := denied fs;
               clock := clock fs |}.

(** *** Staleness detector and known-host cache *)

(** The inner loop of [needsARebuildForTarget]: a pattern whose match
    errors is passed over. *)
Fixpoint matchesSome (patterns : list string) (part : string) : bool :=
  match patterns with
  | [] => false
  | pat :: rest =>
      match path.Match pat part with
      | (_, Some _) => matchesSome rest part
      | (true, None) => true
      | (false, None) => matchesSome rest part
      end
  end.

Section Staleness.

Variable ord : MapOrder.
Variable ExpandString : Host → string → string.

(** [utils.ExpandUser] is declared in pkg/utils, a file outside this
    development: the path with the home shorthand expanded, or an error. *)
Variable ExpandUser : string → result string.

(** The [aliases] set of [needsARebuildForTarget]: every alias and
    every known host of every host. *)
Definition aliasSet (c : Config) : gset string :=
  list_to_set
    (flat_map (λ entry : string * Host, Aliases entry.2 ++ knownHosts entry.2)
       (range ord (Hosts c))).

(** The [patterns] slice of [needsARebuildForTarget]. *)
Definition patternList (c : Config) : list string :=
  flat_map (λ entry : string * Host, entry.1 :: Aliases entry.2)
    (range ord (Hosts c)).

(** The loop of [needsARebuildForTarget] over the parts of the target. *)
Fixpoint partsNeedRebuild (c : Config) (aliases : gset string)
    (patterns : list string) (parts : list string) : bool :=
  match parts with
  | [] => false
  | part :: rest =>
      if decide (is_Some (Hosts c !! part)) then partsNeedRebuild c aliases patterns rest
      else if decide (part ∈ aliases) then partsNeedRebuild c aliases patterns rest
      else if matchesSome patterns part then true
      else partsNeedRebuild c aliases patterns rest
  end.

Definition needsARebuildForTarget (c : Config) (target : string) : bool :=
  partsNeedRebuild c (aliasSet c) (patternList c) (gostrings.Split target "/").

(** [addKnownHost]: the host is looked up with [GetHostSafe], and the
    entry registered under its [pattern] is updated in place. *)
Definition addKnownHost (fuel : nat) (c : Config) (target : string) : outcome Config :=
  host ← GetHostSafe ord ExpandString fuel c target;
  match Hosts c !! pattern host with
  | Some inst => Ok (set_Hosts (<[pattern host := AddKnownHost target inst]> (Hosts c)) c)
  | None => Ok c
  end.

(** [SaveNewKnownHost]: a failure to expand or to open the cache file is
    logged, and the in-memory set stays updated. *)
Definition SaveNewKnownHost (fuel : nat) (c : Config) (fs : FileSystem)
    (target : string) : outcome (Config * FileSystem) :=
  c ← addKnownHost fuel c target;
  let path := match ExpandUser (ASSHKnownHostFile c) with
              | Success p => p
              | Failure _ => ""
              end in
  match appendLine fs path target with
  | Some fs' => Ok (c, fs')
  | None => Ok (c, fs)
  end.

(** The loop of [isSSHConfigOutdated] over [c.includedFiles]. *)
Fixpoint newerThan (fs : FileSystem) (sshConfigModTime : Z)
    (files : list (string * bool)) : bool * option error :=
  match files with
  | [] => (false, None)
  | (filepath, _) :: rest =>
      match Stat fs filepath with
      | Success t => if (sshConfigModTime <? t)%Z then (true, None)
                     else newerThan fs sshConfigModTime rest
      | Failure err => (false, Some err)
      end
  end.

Definition isSSHConfigOutdated (c : Config) (fs : FileSystem) : bool * option error :=
  match ExpandUser (sshConfigPath c) with
  | Success filepath =>
      match Stat fs filepath with
      | Success sshConfigModTime =>
          newerThan fs sshConfigModTime (range ord (includedFiles c))
      | Failure err => (false, Some err)
      end
  | Failure err => (false, Some err)
  end.

(** [IsConfigOutdated]: the pair returned, with the configuration and
    the file system as the call leaves them. *)
Definition IsConfigOutdated (fuel : nat) (c : Config) (fs : FileSystem)
    (target : string) : outcome ((bool * option error) * Config * FileSystem) :=
  if needsARebuildForTarget c target
  then
    '(c', fs') ← SaveNewKnownHost fuel c fs target;
    Ok ((true, None), c', fs')
  else Ok (isSSHConfigOutdated c fs, c, fs).

End Staleness.

(** *** Serializer *)

Section Serializer.

Variable ord : MapOrder.
Variable ExpandString : Host → string → string.

(** [version.VERSION] is declared in pkg/version, a file outside this
    development. *)
Variable VERSION : string.

(** [Host.WriteSSHConfigTo] is declared in host.go, a file outside this
    development: the text of the block it writes for a host. *)
Variable Host_WriteSSHConfigTo : Host → string.

(** [sortedNames]: the keys of [Hosts], sorted. [sort.Sort] on a
    [sort.StringSlice] orders by byte-wise [<]; the keys are distinct,
    so the result is the one sorted arrangement whatever algorithm
    sorts. *)
Definition sortedNames (c : Config) : list string :=
  merge_sort String.le ((range ord (Hosts c)).*1).

(** The header literal after [strings.TrimSpace]. *)
Definition headerTemplate : string :=
  "# This file was automatically generated by assh v%VERSION" +:+ newline +:+
  "# on %BUILD_DATE, based on ~/.ssh/assh.yml" +:+ newline +:+
  "#" +:+ newline +:+
  "# more info: https://github.com/noqqe/advanced-ssh-config".

(** [buildDate] is [time.Now().Format(...)], the reading of the clock. *)
Definition header (buildDate : string) : string :=
  gostrings.Replace
    (gostrings.Replace headerTemplate "%VERSION" VERSION)
    "%BUILD_DATE" buildDate.

Definition Fprintln (w : string) (line : string) : string :=
  w +:+ line +:+ newline.

(** The loop of [WriteSSHConfigTo] over the sorted names. *)
Fixpoint writeHosts (fuel : nat) (c : Config) (names : list string) (w : string)
    : outcome string :=
  match names with
  | [] => Ok w
  | nm :: rest =>
      match Hosts c !! nm with
      | Some host =>
          computedHost ← computeHost ord ExpandString fuel host c nm false;
          writeHosts fuel c rest (Fprintln (w +:+ Host_WriteSSHConfigTo computedHost) "")
      | None => Panic (Errorf "nil pointer dereference")
      end
  end.

(** [WriteSSHConfigTo]: the bytes written to [w], and the configuration
    as the call leaves it ([c.Defaults.name] is assigned). *)
Definition WriteSSHConfigTo (fuel : nat) (c : Config) (buildDate : string)
    : outcome (string * Config) :=
  let w := Fprintln "" (header buildDate) in
  let w := Fprintln w "" in
  let w := Fprintln w "# host-based configuration" in
  w ← writeHosts fuel c (sortedNames c) w;
  let w := Fprintln w "# global configuration" in
  let c := set_Defaults (set_name "*" (Defaults c)) c in
  Ok (w +:+ Host_WriteSSHConfigTo (Defaults c), c).

End Serializer.

End config.

(** ** Package hooks *)

Module hooks.

Section Hooks.

(** [RunArgs] is [interface{}]. *)
Variable RunArgs : Type.

(** What the drivers act on (files, processes, connections). *)
Variable World : Type.

(** [HookDriver]: the two methods of the interface, as functions of the
    state they act on. *)
Record HookDriver : Type := {
  Run : RunArgs → World → option error * World;
  Close : World → option error * World
}.

(** The constructors of the three built-in drivers are declared in
    files outside this development. *)
Variable NewWriteDriver : string → result HookDriver.
Variable NewExecDriver : string → result HookDriver.
Variable NewDaemonDriver : string → result HookDriver.

(** [New(expr)]. *)
Definition New (expr : string) : result HookDriver :=
  let driverName := default "" (head (gostrings.Split expr " ")) in
  let param := gostrings.Join (tail (gostrings.Split expr " ")) " " in
  if decide (driverName = "write") then NewWriteDriver param
  else if decide (driverName = "exec") then NewExecDriver param
  else if decide (driverName = "daemon") then NewDaemonDriver param
  else Failure (Errorf ("No such driver " +:+ driverName)).

(** The method calls made on drivers, by position in the driver slice. *)
Inductive call : Type :=
  | CallRun (i : nat)
  | CallClose (i : nat).

(** First loop of [InvokeAll]: one driver per expression, stopping at
    the first expression that fails to instantiate. *)
Fixpoint instantiate (h : list string) (drivers : list HookDriver)
    : result (list HookDriver) :=
  match h with
  | [] => Success drivers
  | expr :: rest =>
      match New expr with
      | Success driver => instantiate rest (drivers ++ [driver])
      | Failure err => Failure err
      end
  end.

(** Second loop of [InvokeAll]: [i] is the position of the head of
    [drivers], [trace] the calls made so far. *)
Fixpoint runAll (drivers : list HookDriver) (i : nat) (args : RunArgs)
    (w : World) (trace : list call) : option error * World * list call :=
  match drivers with
  | [] => (None, w, trace)
  | driver :: rest =>
      match Run driver args w with
      | (Some err, w') => (Some err, w', trace ++ [CallRun i])
      | (None, w') => runAll rest (S i) args w' (trace ++ [CallRun i])
      end
  end.

(** [Hooks.InvokeAll(args)]: the pair [(drivers, err)] returned (a nil
    slice is the empty list), the state the call leaves, and the method
    calls it made. *)
Definition InvokeAll (h : list string) (args : RunArgs) (w : World)
    : (list HookDriver * option error) * World * list call :=
  match instantiate h [] with
  | Success drivers =>
      match runAll drivers 0 args w [] with
      | (Some err, w', trace) => (([], Some err), w', trace)
      | (None, w', trace) => ((drivers, None), w', trace)
      end
  | Failure err => (([], Some err), w, [])
  end.

(** [HookDrivers.Close()]: the errors collected, the state left and the
    calls made. *)
Fixpoint closeAll (drivers : list HookDriver) (i : nat) (w : World)
    (errs : list error) (trace : list call) : list error * World * list call :=
  match drivers with
  | [] => (errs, w, trace)
  | driver :: rest =>
      match Close driver w with
      | (Some err, w') => closeAll rest (S i) w' (errs ++ [err]) (trace ++ [CallClose i])
      | (None, w') => closeAll rest (S i) w' errs (trace ++ [CallClose i])
      end
  end.

Definition HookDrivers_Close (hd : list HookDriver) (w : World)
    : list error * World * list call :=
  closeAll hd 0 w [] [].

End Hooks.

End hooks.

(** ** The statements of the specification, as definitions *)

Module spec.

Import config.

(** The patterns of the hosts in the order [getHostByName] tries them:
    each key followed by the aliases of its host. *)
Definition hostPatterns (entries : list (string * Host)) : list (string * Host) :=
  flat_map (λ entry : string * Host,
              (entry.1, entry.2) :: ((λ a, (a, entry.2)) <$> Aliases entry.2))
           entries.

(** How a list of patterns, tried in order, decides a name: the first
    pattern that matches gives its host, a malformed pattern met before
    any match gives the error of the matcher, and otherwise nothing is
    found. *)
Inductive decides (nm : string) : list (string * Host) → scan Host → Prop :=
  | decides_match pre pat host post :
      Forall (λ p, path.Match p.1 nm = (false, None)) pre →
      path.Match pat nm = (true, None) →
      decides nm (pre ++ (pat, host) :: post) (Found host)
  | decides_error pre pat host post matched err :
      Forall (λ p, path.Match p.1 nm = (false, None)) pre →
      path.Match pat nm = (matched, Some err) →
      decides nm (pre ++ (pat, host) :: post) (Failed err)
  | decides_none pats :
      Forall (λ p, path.Match p.1 nm = (false, None)) pats →
      decides nm pats NotFound.

(** Glob match as the resolution order of the specification reads it: a
    yes or a no. *)
Definition globMatch (nm : string) (entry : string * Host) : bool :=
  (path.Match entry.1 nm).1.

(** The resolution order in the words of the specification: exact key,
    then the first glob match among keys and aliases, then (if allowed)
    the first glob match among templates, then (if allowed) a virtual
    host, else not found. [compute_host] is what is done with the host
    that was found. *)
Definition resolveInOrder (ord : MapOrder)
    (compute_host : Host → string → bool → outcome Host)
    (c : Config) (nm : string) (allowVirtual expandDefaults allowTemplateFallback : bool)
    : outcome Host :=
  match Hosts c !! nm with
  | Some host => compute_host host nm expandDefaults
  | None =>
      match find (globMatch nm) (hostPatterns (range ord (Hosts c))) with
      | Some (_, host) => compute_host host nm expandDefaults
      | None =>
          match (if allowTemplateFallback
                 then find (globMatch nm) (range ord (Templates c))
                 else None) with
          | Some (_, template) => compute_host template nm expandDefaults
          | None =>
              if allowVirtual
              then compute_host (set_HostName nm (NewHost nm)) nm expandDefaults
              else Err (Errorf ("no such host: " +:+ nm))
          end
      end
  end.

(** Single-level inheritance in the words of the specification: a parent
    is looked up and merged as it is declared, its own [Inherits] list is
    not walked. *)
Definition computeHostOneLevel (ord : MapOrder) (host : Host) (c : Config)
    (nm : string) : outcome Host :=
  inheritLoop
    (λ parent,
       getHostByPath_with ord (λ h n _, Ok (set_inherited {[n]} (set_name n h)))
         c parent false false true)
    (Inherits host)
    (set_inherited {[nm]} (set_name nm host)).

(** The invariant the loader establishes ([applyMissingNames]): every
    host carries the key it is registered under as its [pattern]. *)
Definition patternsAreKeys (c : Config) : Prop :=
  ∀ key host, Hosts c !! key = Some host → pattern host = key.


(** The host written for a name: the host registered under the name,
    computed without the defaults of the configuration. *)
Definition blockOf (ord : MapOrder) (ExpandString : Host → string → string)
    (fuel : nat) (c : Config) (nm : string) (h : Host) : Prop :=
  ∃ raw, Hosts c !! nm = Some raw ∧
         computeHost ord ExpandString fuel raw c nm false = Ok h.

(** The layout of the generated file in the words of the specification:
    the header, one block per host, each followed by an empty line, and
    one trailing block for the defaults. *)
Definition layout (header : string) (block : Host → string)
    (hosts : list Host) (defaults : Host) : string :=
  header +:+ newline +:+
  newline +:+
  "# host-based configuration" +:+ newline +:+
  foldr (λ h rest, block h +:+ newline +:+ rest) "" hosts +:+
  "# global configuration" +:+ newline +:+
  block defaults.

End spec.

(** ** Concrete configurations and collaborators *)

Module examples.

Import config.

(** A host as the loader leaves it: [pattern] and [name] are the key. *)
Definition mkHost (key hostName : string) (aliases inherits : list string) : Host :=
  {| HostName := hostName; Aliases := aliases; Inherits := inherits;
     Gateways := []; pattern := key; name := key; inputName := "";
     isDefault := false; isTemplate := false; inherited := ∅;
     knownHosts := [] |}.

Definition withHosts (hosts : list Host) : Config :=
  set_Hosts (list_to_map ((λ h, (pattern h, h)) <$> hosts)) New.

(** A placeholder substitution that leaves the string as it is. *)
Definition noExpand : Host → string → string := λ _ s, s.

(** A and B inherit from each other. *)
Definition hostA : Host := mkHost "A" "" [] ["B"].
Definition hostB : Host := mkHost "B" "10.0.0.2" [] ["A"].
Definition cyclic : Config := withHosts [hostA; hostB].

(** child inherits from parent, parent inherits from grand. *)
Definition child : Host := mkHost "child" "" [] ["parent"].
Definition parent : Host := mkHost "parent" "" [] ["grand"].
Definition grand : Host := mkHost "grand" "1.2.3.4" [] [].
Definition threeLevels : Config := withHosts [child; parent; grand].

(** One host whose key is a malformed pattern. *)
Definition badKey : Config := withHosts [mkHost "[" "" [] []].

(** One host with a glob key and a malformed alias. *)
Definition web : Host := mkHost "web*" "srv" ["["] [].
Definition badAlias : Config := withHosts [web].

(** One host with a glob key, one loaded source file, and a file system
    in which the source is newer than the generated file. *)
Definition dynamic : Config :=
  {| Hosts := {[ "web*" := mkHost "web*" "srv" [] [] ]};
     Templates := ∅; Defaults := zeroHost; Includes := [];
     ASSHKnownHostFile := "/home/u/.ssh/assh_known_hosts";
     ASSHBinaryPath := "";
     includedFiles := {[ "/home/u/.ssh/assh.yml" := true ]};
     sshConfigPath := "/home/u/.ssh/config" |}.

Definition sourceNewer : FileSystem :=
  {| lines := ∅;
     modTime := {[ "/home/u/.ssh/config" := 5%Z; "/home/u/.ssh/assh.yml" := 10%Z ]};
     denied := ∅;
     clock := 20%Z |}.

Definition sourceOlder : FileSystem :=
  {| lines := ∅;
     modTime := {[ "/home/u/.ssh/config" := 10%Z; "/home/u/.ssh/assh.yml" := 5%Z ]};
     denied := ∅;
     clock := 20%Z |}.

(** Paths that need no expansion. *)
Definition plainPath : string → result string := Success.


Definition version : string := "2.7.0".

(** A block writer that prints the name and the address of a host. *)
Definition plainBlock (h : Host) : string :=
  "Host " +:+ name h +:+ newline +:+
  "  HostName " +:+ HostName h +:+ newline.

(** A driver whose methods log their call in a world made of log lines;
    [fails] makes [Run] return an error. *)
Definition logDriver (label : string) (fails : bool) : hooks.HookDriver unit (list string) :=
  {| hooks.Run := λ _ w,
       (if fails then Some (Errorf ("cannot run " +:+ label)) else None,
        w ++ ["run " +:+ label]);
     hooks.Close := λ w, (None, w ++ ["close " +:+ label]) |}.

Definition logNew : string → result (hooks.HookDriver unit (list string)) :=
  hooks.New unit (list string)
    (λ param, Success (logDriver param false))
    (λ param, Success (logDriver param true))
    (λ param, Failure (Errorf "daemon: cannot connect")).

Definition logInstantiate :=
  hooks.instantiate unit (list string)
    (λ param, Success (logDriver param false))
    (λ param, Success (logDriver param true))
    (λ param, Failure (Errorf "daemon: cannot connect")).

Definition logInvokeAll :=
  hooks.InvokeAll unit (list string)
    (λ param, Success (logDriver param false))
    (λ param, Success (logDriver param true))
    (λ param, Failure (Errorf "daemon: cannot connect")).


End examples.

(** ** Package config: loading, saving and the cache file *)

Module persist.

Import config.

(** A text as the lines a reader sees: the pieces between line feeds,
    without the empty piece after a final line feed. *)
Definition textLines (text : string) : list string :=
  match reverse (gostrings.Split text newline) with
  | "" :: rest => reverse rest
  | _ => gostrings.Split text newline
  end.

(** A file created (or truncated) by [os.Create], written with the whole
    text and closed. *)
Definition writeFile (fs : FileSystem) (path text : string) : FileSystem :=
  {| lines := <[path := textLines text]> (lines fs);
     modTime := <[path := clock fs]> (modTime fs);
     denied := denied fs;
     clock := clock fs |}.

(** What registering known hosts leaves as it was: the keys of [Hosts],
    [includedFiles] and [sshConfigPath]. *)
Definition sameFrame (c c' : Config) : Prop :=
  sshConfigPath c' = sshConfigPath c ∧
  includedFiles c' = includedFiles c ∧
  ∀ key, is_Some (Hosts c' !! key) ↔ is_Some (Hosts c !! key).

Section Persist.

Variable ord : MapOrder.
Variable ExpandString : Host → string → string.
Variable ExpandUser : string → result string.
Variable VERSION : string.
Variable Host_WriteSSHConfigTo : Host → string.

(** The loop of [LoadKnownHosts] over the lines of the cache file. *)
Fixpoint addKnownHosts (fuel : nat) (c : Config) (known : list string) : outcome Config :=
  match known with
  | [] => Ok c
  | target :: rest =>
      c ← addKnownHost ord ExpandString fuel c target;
      addKnownHosts fuel c rest
  end.

(** [LoadKnownHosts]: the configuration as the call leaves it and the
    error returned. The lines are those a [bufio.Scanner] yields (each
    within its token limit, so that [scanner.Err()] is nil). *)
Definition LoadKnownHosts (fuel : nat) (c : Config) (fs : FileSystem)
    : outcome (Config * option error) :=
  match ExpandUser (ASSHKnownHostFile c) with
  | Failure err => Ok (c, Some err)
  | Success path =>
      match lines fs !! path with
      | None => Ok (c, Some (Errorf ("open " +:+ path +:+ ": no such file or directory")))
      | Some known =>
          c ← addKnownHosts fuel c known;
          Ok (c, None)
      end
  end.

(** [SaveSSHConfig]: the configuration and the files as the call leaves
    them, and the error returned. *)
Definition SaveSSHConfig (fuel : nat) (c : Config) (fs : FileSystem) (buildDate : string)
    : outcome (Config * FileSystem * option error) :=
  if decide (sshConfigPath c = "")
  then Ok (c, fs, Some (Errorf "no Config.sshConfigPath configured"))
  else
    match ExpandUser (sshConfigPath c) with
    | Failure err => Ok (c, fs, Some err)
    | Success filepath =>
        if decide (filepath = "" ∨ filepath ∈ denied fs)
        then Ok (c, fs, Some (Errorf ("open " +:+ filepath +:+ ": permission denied")))
        else
          '(text, c') ← WriteSSHConfigTo ord ExpandString VERSION Host_WriteSSHConfigTo
                          fuel c buildDate;
          Ok (c', writeFile fs filepath text, None)
    end.

End Persist.

End persist.

Module loader.

(** [Config] as the loader handles it: the entries of [Hosts] and
    [Templates] are pointers, which the deserializer can leave nil; the
    fields a deserializer can set (the exported ones) are kept apart from
    [includedFiles] and [sshConfigPath]. *)
Record Document : Type := {
  Hosts : gmap string (option config.Host);
  Templates : gmap string (option config.Host);
  Defaults : config.Host;
  Includes : list string;
  ASSHKnownHostFile : string;
  ASSHBinaryPath : string
}.

Record Config : Type := {
  document : Document;
  includedFiles : gmap string bool;
  sshConfigPath : string
}.

Definition set_document (d : Document) (c : Config) : Config :=
  {| document := d; includedFiles := includedFiles c; sshConfigPath := sshConfigPath c |}.

Definition set_includedFiles (v : gmap string bool) (c : Config) : Config :=
  {| document := document c; includedFiles := v; sshConfigPath := sshConfigPath c |}.

Definition set_pattern (v : string) (h : config.Host) : config.Host :=
  {| config.HostName := config.HostName h; config.Aliases := config.Aliases h;
     config.Inherits := config.Inherits h; config.Gateways := config.Gateways h;
     config.pattern := v; config.name := config.name h;
     config.inputName := config.inputName h; config.isDefault := config.isDefault h;
     config.isTemplate := config.isTemplate h; config.inherited := config.inherited h;
     config.knownHosts := config.knownHosts h |}.

Definition set_isTemplate (v : bool) (h : config.Host) : config.Host :=
  {| config.HostName := config.HostName h; config.Aliases := config.Aliases h;
     config.Inherits := config.Inherits h; config.Gateways := config.Gateways h;
     config.pattern := config.pattern h; config.name := config.name h;
     config.inputName := config.inputName h; config.isDefault := config.isDefault h;
     config.isTemplate := v; config.inherited := config.inherited h;
     config.knownHosts := config.knownHosts h |}.

Definition set_isDefault (v : bool) (h : config.Host) : config.Host :=
  {| config.HostName := config.HostName h; config.Aliases := config.Aliases h;
     config.Inherits := config.Inherits h; config.Gateways := config.Gateways h;
     config.pattern := config.pattern h; config.name := config.name h;
     config.inputName := config.inputName h; config.isDefault := v;
     config.isTemplate := config.isTemplate h; config.inherited := config.inherited h;
     config.knownHosts := config.knownHosts h |}.

(** [New()]. *)
Definition New : Config :=
  {| document := {| Hosts := ∅; Templates := ∅; Defaults := config.zeroHost;
                    Includes := []; ASSHKnownHostFile := "~/.ssh/assh_known_hosts";
                    ASSHBinaryPath := "" |};
     includedFiles := ∅;
     sshConfigPath := "~/.ssh/config" |}.

(** The body of the first loop of [applyMissingNames] for one entry: a nil
    entry is replaced by [&Host{}], then [pattern] and [name] are set. *)
Definition nameHost (key : string) (host : option config.Host) : config.Host :=
  config.set_name key (set_pattern key (default config.zeroHost host)).

(** The body of the second loop, for a template. *)
Definition nameTemplate (key : string) (template : option config.Host) : config.Host :=
  set_isTemplate true (nameHost key template).

(** [applyMissingNames]. *)
Definition applyMissingNames (c : Config) : Config :=
  set_document
    {| Hosts := map_imap (λ key host, Some (Some (nameHost key host))) (Hosts (document c));
       Templates :=
         map_imap (λ key template, Some (Some (nameTemplate key template)))
           (Templates (document c));
       Defaults := set_isDefault true (Defaults (document c));
       Includes := Includes (document c);
       ASSHKnownHostFile := ASSHKnownHostFile (document c);
       ASSHBinaryPath := ASSHBinaryPath (document c) |}
    c.

(** The configuration once no entry is nil, as the lookups use it. *)
Definition freeze (c : Config) : config.Config :=
  {| config.Hosts := omap id (Hosts (document c));
     config.Templates := omap id (Templates (document c));
     config.Defaults := Defaults (document c);
     config.Includes := Includes (document c);
     config.ASSHKnownHostFile := ASSHKnownHostFile (document c);
     config.ASSHBinaryPath := ASSHBinaryPath (document c);
     config.includedFiles := includedFiles c;
     config.sshConfigPath := sshConfigPath c |}.

Section Loading.

Variable ord : MapOrder.

(** [utils.ExpandUser], declared in pkg/utils. *)
Variable ExpandUser : string → result string.

(** [flexyaml.Unmarshal(buf, &c)], declared in pkg/flexyaml: the document
    as the call leaves it, whether or not it fails. *)
Variable Unmarshal : list string → Document → Document * option error.

(** [filepath.Glob] on the files at hand. *)
Variable Glob : config.FileSystem → string → result (list string).

(** [LoadConfig], on the content read from the source. *)
Definition LoadConfig (c : Config) (source : list string) : Config * option error :=
  match Unmarshal source (document c) with
  | (d, Some err) => (set_document d c, Some err)
  | (d, None) => (applyMissingNames (set_document d c), None)
  end.

(** What the loading functions act on: the configuration and the
    package variable [asshBinaryPath]. *)
Definition State : Type := Config * string.

(** The loop of [LoadFiles] over the matches: the error of a file is
    logged and the loop goes on. *)
Fixpoint loadMatches (loadFile : State → string → outcome (State * option error))
    (st : State) (filepaths : list string) : outcome State :=
  match filepaths with
  | [] => Ok st
  | filepath :: rest =>
      '(st, _) ← loadFile st filepath;
      loadMatches loadFile st rest
  end.

(** [LoadFiles], with the call to [LoadFile] left open. *)
Definition LoadFiles_with (loadFile : State → string → outcome (State * option error))
    (fs : config.FileSystem) (st : State) (pattern : string)
    : outcome (State * option error) :=
  match ExpandUser pattern with
  | Failure err => Ok (st, Some err)
  | Success expandedPattern =>
      match Glob fs expandedPattern with
      | Failure err => Ok (st, Some err)
      | Success filepaths =>
          '(c, bin) ← loadMatches loadFile st filepaths;
          if decide (ASSHBinaryPath (document c) = "") then Ok ((c, bin), None)
          else match ExpandUser (ASSHBinaryPath (document c)) with
               | Failure err => Ok ((c, bin), Some err)
               | Success path => Ok ((c, path), None)
               end
      end
  end.

(** The loop of [LoadFile] over the includes: the first error ends it. *)
Fixpoint loadIncludes (loadFiles : State → string → outcome (State * option error))
    (st : State) (includes : list string) : outcome (State * option error) :=
  match includes with
  | [] => Ok (st, None)
  | include :: rest =>
      '(st, err) ← loadFiles st include;
      match err with
      | Some err => Ok (st, Some err)
      | None => loadIncludes loadFiles st rest
      end
  end.

(** [LoadFile]. Each nested [LoadFile] costs one unit of fuel. *)
Fixpoint LoadFile (fuel : nat) (fs : config.FileSystem) (st : State) (filename : string)
    : outcome (State * option error) :=
  match fuel with
  | 0 => OutOfFuel
  | S fuel' =>
      match ExpandUser filename with
      | Failure err => Ok (st, Some err)
      | Success filepath =>
          if decide (is_Some (includedFiles st.1 !! filepath)) then Ok (st, None)
          else
            let c := set_includedFiles (<[filepath := false]> (includedFiles st.1)) st.1 in
            match config.lines fs !! filepath with
            | None =>
                Ok ((c, st.2),
                    Some (Errorf ("open " +:+ filepath +:+ ": no such file or directory")))
            | Some source =>
                match LoadConfig c source with
                | (c, Some err) => Ok ((c, st.2), Some err)
                | (c, None) =>
                    let c := set_includedFiles (<[filepath := true]> (includedFiles c)) c in
                    loadIncludes (LoadFiles_with (LoadFile fuel' fs) fs)
                      (c, st.2) (Includes (document c))
                end
            end
      end
  end.

Definition LoadFiles (fuel : nat) (fs : config.FileSystem) (st : State) (pattern : string)
    : outcome (State * option error) :=
  LoadFiles_with (LoadFile fuel fs) fs st pattern.

(** [Open]: the configuration or the error, and [asshBinaryPath]. *)
Definition Open (fuel : nat) (fs : config.FileSystem) (bin : string) (path : string)
    : outcome (result Config * string) :=
  '((c, bin), err) ← LoadFile fuel fs (New, bin) path;
  match err with
  | Some err => Ok (Failure err, bin)
  | None => Ok (Success c, bin)
  end.

(** [IncludedFiles]. *)
Definition IncludedFiles (c : Config) : list string :=
  (range ord (includedFiles c)).*1.

(** Invariant of the loading functions: the marks of [st] are still
    those of [st']. *)
Definition keepsMarks (st st' : State) : Prop :=
  ∀ f b, includedFiles st.1 !! f = Some b → includedFiles st'.1 !! f = Some b.

(** Every entry of [Hosts] and [Templates] is there (not nil) and carries
    its key, as [applyMissingNames] leaves it. *)
Definition named (d : Document) : Prop :=
  (∀ key entry, Hosts d !! key = Some entry →
     ∃ host, entry = Some host ∧ config.pattern host = key ∧ config.name host = key) ∧
  (∀ key entry, Templates d !! key = Some entry →
     ∃ template, entry = Some template ∧ config.pattern template = key ∧
                 config.name template = key ∧ config.isTemplate template = true).

(** Measure of the loading functions: the files of [universe] whose
    expanded path is not recorded in [includedFiles] yet. *)
Definition pending (c : Config) (f : string) : bool :=
  match ExpandUser f with
  | Success filepath => bool_decide (includedFiles c !! filepath = None)
  | Failure _ => false
  end.

Definition pendingFiles (universe : gset string) (c : Config) : gset string :=
  filter (λ f, pending c f = true) universe.

End Loading.

End loader.

(** ** Package commands *)

Module commands.

Import config.

Section Wrapper.

Variable ord : MapOrder.
Variable ExpandString : Host → string → string.
Variable ExpandUser : string → result string.
Variable VERSION : string.
Variable Host_WriteSSHConfigTo : Host → string.

(** The part of [cmdWrapper] between [config.Open] and [syscall.Exec],
    on the configuration [conf] that [Open] returned: the known hosts
    are loaded, the staleness is checked and the generated file is
    rebuilt when it is reported outdated. The three errors are logged
    and the function goes on; the result is the configuration and the
    files as they are when the binary is executed. *)
Definition refresh (fuel : nat) (conf : Config) (fs : FileSystem) (target buildDate : string)
    : outcome (Config * FileSystem) :=
  '(conf, _) ← persist.LoadKnownHosts ord ExpandString ExpandUser fuel conf fs;
  '((isOutdated, _), conf, fs) ← IsConfigOutdated ord ExpandString ExpandUser fuel conf fs target;
  if isOutdated : bool
  then
    '(conf, fs, _) ← persist.SaveSSHConfig ord ExpandString ExpandUser VERSION
                       Host_WriteSSHConfigTo fuel conf fs buildDate;
    Ok (conf, fs)
  else Ok (conf, fs).

End Wrapper.

End commands.

(** ** Concrete files and collaborators of the loader *)

Module examples2.



(** A deserializer that fails on an empty source and otherwise declares
    one host without a body and one include pattern. *)
Definition parse (source : list string) (d : loader.Document)
    : loader.Document * option error :=
  match source with
  | [] => (d, Some (Errorf "EOF"))
  | _ =>
      ({| loader.Hosts := <["web*" := None]> (loader.Hosts d);
          loader.Templates := loader.Templates d;
          loader.Defaults := loader.Defaults d;
          loader.Includes := ["/etc/assh/*.yml"];
          loader.ASSHKnownHostFile := loader.ASSHKnownHostFile d;
          loader.ASSHBinaryPath := loader.ASSHBinaryPath d |}, None)
  end.

(** Two files in one directory: the first includes the directory, and
    so itself; the second is empty. *)
Definition selfInclude : config.FileSystem :=
  {| config.lines := {[ "/etc/assh/a.yml" := ["includes: /etc/assh/*.yml"];
                        "/etc/assh/b.yml" := [] ]};
     config.modTime := {[ "/etc/assh/a.yml" := 1%Z; "/etc/assh/b.yml" := 1%Z ]};
     config.denied := ∅;
     config.clock := 2%Z |}.

(** Every pattern matches the two files. *)
Definition globDir (fs : config.FileSystem) (pattern : string) : result (list string) :=
  Success ["/etc/assh/a.yml"; "/etc/assh/b.yml"].

Definition universe : gset string := {[ "/etc/assh/a.yml"; "/etc/assh/b.yml" ]}.

End examples2.
Example Match_star : path.Match "web*" "web1" = (true, None).
Proof. reflexivity. Qed.
Example Match_bad : path.Match "[" "web1" = (false, Some ErrBadPattern).
Proof. reflexivity. Qed.
Example Match_class : path.Match "srv[0-9]?" "srv7a" = (true, None).
Proof. reflexivity. Qed.
Example Match_class_neg : path.Match "srv[^0-9]" "srv7" = (false, None).
Proof. reflexivity. Qed.
Example Match_lit : path.Match "kkk" "kkk" = (true, None).
Proof. reflexivity. Qed.
Example Split_ex : gostrings.Split "a/b/c" "/" = ["a"; "b"; "c"].
Proof. reflexivity. Qed.
Example SplitN_ex : gostrings.SplitN2 "a/b/c" "/" = ["a"; "b/c"].
Proof. reflexivity. Qed.
Example Replace_ex : gostrings.Replace "%h.some.%h" "%h" "%n" = "%n.some.%n".
Proof. reflexivity. Qed.
Example Match_class_open : path.Match "web[a-" "weba" = (false, Some ErrBadPattern).
Proof. reflexivity. Qed.
Example Match_class_empty : path.Match "[]a]" "a" = (false, Some ErrBadPattern).
Proof. reflexivity. Qed.
Example Match_esc : path.Match "a\*b" "a*b" = (true, None).
Proof. reflexivity. Qed.
Example Match_slash : path.Match "a*" "ab/c" = (false, None).
Proof. reflexivity. Qed.
Example Match_mid : path.Match "*.ddd" "test.ddd" = (true, None).
Proof. reflexivity. Qed.


(** ** Go library functions: basic facts *)

Lemma cut_no_sep (c : ascii) (s : string) :
  gostrings.contains_byte c s = false → gostrings.cut (String c "") s = None.
Proof.
  induction s as [|d s IH]; simpl; [done|].
  destruct (ascii_dec c d) as [->|Hne].
  - rewrite decide_True by done. discriminate.
  - rewrite decide_False by done. intros H. by rewrite (IH H).
Qed.

Lemma SplitN2_no_sep (c : ascii) (s : string) :
  gostrings.contains_byte c s = false → gostrings.SplitN2 s (String c "") = [s].
Proof. intros H. unfold gostrings.SplitN2. by rewrite cut_no_sep. Qed.

Lemma outcome_bind_Ok {A} (r : outcome A) : (r ≫= Ok) = r.
Proof. by destruct r. Qed.

Lemma Match_error_iff (pat nm : string) :
  (∃ matched err, path.Match pat nm = (matched, Some err)) ↔ path.parse pat = None.
Proof.
  unfold path.Match. destruct (path.parse pat); split.
  - by intros (? & ? & [=]).
  - done.
  - done.
  - eauto.
Qed.

Lemma Match_error_is_ErrBadPattern (pat nm : string) matched err :
  path.Match pat nm = (matched, Some err) →
  err = ErrBadPattern ∧ matched = false ∧ path.parse pat = None.
Proof.
  unfold path.Match. destruct (path.parse pat); intros [=]; by subst.
Qed.

(** ** Host lookup and inheritance *)

Section ResolutionFacts.

Import config.

Variable ord : MapOrder.
Variable ExpandString : Host → string → string.

Abbreviation computeHost := (config.computeHost ord ExpandString).
Abbreviation getHostByName := (config.getHostByName ord ExpandString).
Abbreviation getHostByPath := (config.getHostByPath ord ExpandString).
Abbreviation GetHostSafe := (config.GetHostSafe ord ExpandString).
Abbreviation GetGatewaySafe := (config.GetGatewaySafe ord ExpandString).

Lemma getHostByPath_with_bare compute_host c nm safe compute allowTemplate :
  gostrings.contains_byte "/" nm = false →
  getHostByPath_with ord compute_host c nm safe compute allowTemplate
  = getHostByName_with ord compute_host c nm safe compute allowTemplate.
Proof.
  intros H. unfold getHostByPath_with. rewrite SplitN2_no_sep by done.
  apply outcome_bind_Ok.
Qed.

Lemma getHostByName_with_exact compute_host c nm host safe compute allowTemplate :
  Hosts c !! nm = Some host →
  getHostByName_with ord compute_host c nm safe compute allowTemplate
  = compute_host host nm compute.
Proof. intros H. unfold getHostByName_with. by rewrite H. Qed.

(** One unfolding of [computeHost]. *)
Lemma computeHost_S fuel host c nm fullCompute :
  computeHost (S fuel) host c nm fullCompute
  = (computedHost ←
       inheritLoop
         (λ parent, getHostByPath fuel c parent false false true)
         (Inherits host) (set_inherited {[nm]} (set_name nm host));
     Ok (if fullCompute then applyFullCompute ExpandString c nm computedHost
         else computedHost)).
Proof. reflexivity. Qed.

(** What the visited-set does catch: a host that names itself as parent
    is resolved without any lookup. *)
Lemma computeHost_self_parent_skipped fuel host c nm :
  Inherits host = [nm] →
  computeHost (S fuel) host c nm false = Ok (set_inherited {[nm]} (set_name nm host)).
Proof.
  intros Hi. rewrite computeHost_S, Hi. simpl.
  by rewrite decide_True by set_solver.
Qed.

(** Two hosts that name each other as their only parent: no amount of
    fuel lets [computeHost] return for either. *)
Lemma mutual_inheritance_diverges c A B hA hB :
  Hosts c !! A = Some hA → Hosts c !! B = Some hB → A ≠ B →
  gostrings.contains_byte "/" A = false →
  gostrings.contains_byte "/" B = false →
  Inherits hA = [B] → Inherits hB = [A] →
  ∀ fuel fullCompute,
    computeHost fuel hA c A fullCompute = OutOfFuel ∧
    computeHost fuel hB c B fullCompute = OutOfFuel.
Proof.
  intros HA HB Hne HsA HsB HiA HiB fuel.
  induction fuel as [|fuel IH]; intros fullCompute; [done|].
  split; rewrite computeHost_S.
  - rewrite HiA. simpl. rewrite decide_False by set_solver.
    unfold getHostByPath. rewrite getHostByPath_with_bare by done.
    rewrite (getHostByName_with_exact _ _ _ hB) by done.
    by rewrite (proj2 (IH false)).
  - rewrite HiB. simpl. rewrite decide_False by set_solver.
    unfold getHostByPath. rewrite getHostByPath_with_bare by done.
    rewrite (getHostByName_with_exact _ _ _ hA) by done.
    by rewrite (proj1 (IH false)).
Qed.

(** C1. Host A inherits from B and B inherits from A: whatever the fuel,
    resolving A with [computeHost] does not return. The visited-set
    [inherited] is created afresh by every call, so the nested call for B
    does not know that A is being resolved. *)
Theorem computeHost_cycle_never_returns (fuel : nat) (fullCompute : bool) :
  computeHost fuel examples.hostA examples.cyclic "A" fullCompute = OutOfFuel.
Proof.
  refine (proj1 (mutual_inheritance_diverges examples.cyclic "A" "B"
                   examples.hostA examples.hostB _ _ _ _ _ _ _ fuel fullCompute));
    by vm_compute.
Qed.

(** *** The order of resolution *)

Lemma decides_cons_nomatch nm p rest r :
  path.Match p.1 nm = (false, None) →
  spec.decides nm rest r → spec.decides nm (p :: rest) r.
Proof.
  intros Hp Hr. inversion Hr as [pre pat host post Hpre Hm|pre pat host post m e Hpre Hm|pats Hall]; subst.
  - apply (spec.decides_match nm (p :: pre)); [by constructor|done].
  - apply (spec.decides_error nm (p :: pre) _ _ _ m); [by constructor|done].
  - apply spec.decides_none. by constructor.
Qed.

Lemma decides_matchPatterns nm host pats rest r :
  spec.decides nm rest r →
  spec.decides nm (((λ a, (a, host)) <$> pats) ++ rest)
    (match matchPatterns pats nm host with
     | NotFound => r
     | decided => decided
     end).
Proof.
  intros Hr. induction pats as [|pat pats IH]; simpl; [by destruct r|].
  destruct (path.Match pat nm) as [[] [err|]] eqn:Hm.
  - by apply (spec.decides_error nm [] pat host _ true).
  - by apply (spec.decides_match nm [] pat host).
  - by apply (spec.decides_error nm [] pat host _ false).
  - by apply decides_cons_nomatch.
Qed.

Lemma scanHosts_decides entries nm :
  spec.decides nm (spec.hostPatterns entries) (scanHosts entries nm).
Proof.
  induction entries as [|[key host] entries IH].
  - apply spec.decides_none. constructor.
  - change (spec.hostPatterns ((key, host) :: entries))
      with (((λ a, (a, host)) <$> (key :: Aliases host)) ++ spec.hostPatterns entries).
    change (scanHosts ((key, host) :: entries) nm)
      with (match matchPatterns (key :: Aliases host) nm host with
            | NotFound => scanHosts entries nm
            | decided => decided
            end).
    by apply decides_matchPatterns.
Qed.

Lemma scanTemplates_decides entries nm :
  spec.decides nm entries (scanTemplates entries nm).
Proof.
  induction entries as [|[key host] entries IH].
  - apply spec.decides_none. constructor.
  - change (scanTemplates ((key, host) :: entries) nm)
      with (match matchPatterns [key] nm host with
            | NotFound => scanTemplates entries nm
            | decided => decided
            end).
    by apply (decides_matchPatterns nm host [key]).
Qed.

(** What a list of patterns decides is determined by the list. *)
Lemma decides_cons_inv nm pat host pats r :
  spec.decides nm ((pat, host) :: pats) r →
  match path.Match pat nm with
  | (true, Some err) | (false, Some err) => r = Failed err
  | (true, None) => r = Found host
  | (false, None) => spec.decides nm pats r
  end.
Proof.
  intros Hr.
  inversion Hr as [pre pat' host' post Hpre Hm Heq|pre pat' host' post m e Hpre Hm Heq|? Hall];
    subst.
  - destruct pre as [|q pre]; simplify_eq/=.
    + by rewrite Hm.
    + apply Forall_cons in Hpre as [Hq Hpre]. simpl in Hq. rewrite Hq.
      by apply spec.decides_match.
  - destruct pre as [|q pre]; simplify_eq/=.
    + rewrite Hm. by destruct m.
    + apply Forall_cons in Hpre as [Hq Hpre]. simpl in Hq. rewrite Hq.
      by apply (spec.decides_error nm pre _ _ _ m).
  - apply Forall_cons in Hall as [Hq Hall]. simpl in Hq. rewrite Hq.
    by apply spec.decides_none.
Qed.

Lemma decides_nil_inv nm r : spec.decides nm [] r → r = NotFound.
Proof.
  intros Hr. inversion Hr as [pre|pre|]; subst; [by destruct pre..|done].
Qed.

(** What a list of patterns decides is determined by the list. *)
Lemma decides_functional nm pats r1 r2 :
  spec.decides nm pats r1 → spec.decides nm pats r2 → r1 = r2.
Proof.
  revert r1 r2. induction pats as [|[pat host] pats IH]; intros r1 r2 H1 H2.
  - apply decides_nil_inv in H1, H2. congruence.
  - apply decides_cons_inv in H1, H2.
    destruct (path.Match pat nm) as [[] [err|]]; try congruence.
    by apply IH.
Qed.

(** C3 (amended). [getHostByName] takes the first step that decides:
    (1) an exact key of [Hosts]; (2) the keys and aliases of the hosts,
    tried as patterns in iteration order; (3) if allowed, the keys of the
    templates; (4) if allowed, a virtual host whose [HostName] is the
    name; (5) the not-found error. Steps (2) and (3) are decided by the
    first pattern that matches, or by a malformed pattern met before any
    match, which ends the resolution with the error of the matcher. *)
Theorem getHostByName_resolution_order fuel c nm safe compute allowTemplate :
  ∃ byHosts byTemplates,
    spec.decides nm (spec.hostPatterns (range ord (Hosts c))) byHosts ∧
    spec.decides nm (range ord (Templates c)) byTemplates ∧
    getHostByName fuel c nm safe compute allowTemplate =
      match Hosts c !! nm with
      | Some host => computeHost fuel host c nm compute
      | None =>
          match byHosts with
          | Found host => computeHost fuel host c nm compute
          | Failed err => Err err
          | NotFound =>
              match (if allowTemplate then byTemplates else NotFound) with
              | Found template => computeHost fuel template c nm compute
              | Failed err => Err err
              | NotFound =>
                  if safe
                  then computeHost fuel (set_HostName nm (NewHost nm)) c nm compute
                  else Err (Errorf ("no such host: " +:+ nm))
              end
          end
      end.
Proof.
  exists (scanHosts (range ord (Hosts c)) nm), (scanTemplates (range ord (Templates c)) nm).
  split; [apply scanHosts_decides|]. split; [apply scanTemplates_decides|].
  reflexivity.
Qed.

(** Where every pattern is well formed the code follows the order as the
    specification words it. *)
Lemma scan_find (scanner : list (string * Host) → string → scan Host)
    (flatten : list (string * Host) → list (string * Host)) entries nm :
  spec.decides nm (flatten entries) (scanner entries nm) →
  (∀ p, p ∈ flatten entries → path.parse p.1 ≠ None) →
  scanner entries nm =
    match find (spec.globMatch nm) (flatten entries) with
    | Some (_, host) => Found host
    | None => NotFound
    end.
Proof.
  generalize (scanner entries nm) (flatten entries). clear.
  intros r pats Hd Hwf. induction Hd as [pre pat host post Hpre Hm|pre pat host post m e Hpre Hm|pats Hall].
  - induction pre as [|q pre IH]; simpl.
    + unfold spec.globMatch. simpl. by rewrite Hm.
    + apply Forall_cons in Hpre as [Hq Hpre]. unfold spec.globMatch at 1. rewrite Hq. simpl.
      apply IH; [done|]. intros p Hp. apply Hwf. by right.
  - exfalso. apply (Hwf (pat, host)); [set_solver|].
    by apply Match_error_is_ErrBadPattern in Hm as (_ & _ & ?).
  - induction Hall as [|q pats Hq Hall IH]; simpl; [done|].
    unfold spec.globMatch at 1. rewrite Hq. simpl.
    apply IH. intros p Hp. apply Hwf. by right.
Qed.

Lemma getHostByName_well_formed fuel c nm safe compute allowTemplate :
  (∀ p, p ∈ spec.hostPatterns (range ord (Hosts c)) → path.parse p.1 ≠ None) →
  (∀ p, p ∈ range ord (Templates c) → path.parse p.1 ≠ None) →
  getHostByName fuel c nm safe compute allowTemplate
  = spec.resolveInOrder ord (λ h n fc, computeHost fuel h c n fc)
      c nm safe compute allowTemplate.
Proof.
  intros Hh Ht. unfold config.getHostByName, getHostByName_with, spec.resolveInOrder.
  destruct (Hosts c !! nm); [done|].
  rewrite (scan_find scanHosts spec.hostPatterns) by (done || apply scanHosts_decides).
  destruct (find _ _) as [[? ?]|]; [done|].
  destruct allowTemplate; [|done].
  rewrite (scan_find scanTemplates id) by (done || apply scanTemplates_decides).
  simpl. by destruct (find _ _) as [[? ?]|].
Qed.

(** *** Errors of the matcher in the lookups *)

Lemma getHostByName_match_error_hosts fuel c nm safe compute allowTemplate err :
  Hosts c !! nm = None →
  spec.decides nm (spec.hostPatterns (range ord (Hosts c))) (Failed err) →
  getHostByName fuel c nm safe compute allowTemplate = Err err.
Proof.
  intros Hnone Hd. unfold config.getHostByName, getHostByName_with. rewrite Hnone.
  by rewrite (decides_functional _ _ _ _ (scanHosts_decides _ _) Hd).
Qed.

Lemma getHostByName_match_error_templates fuel c nm safe compute err :
  Hosts c !! nm = None →
  spec.decides nm (spec.hostPatterns (range ord (Hosts c))) NotFound →
  spec.decides nm (range ord (Templates c)) (Failed err) →
  getHostByName fuel c nm safe compute true = Err err.
Proof.
  intros Hnone Hd Ht. unfold config.getHostByName, getHostByName_with. rewrite Hnone.
  rewrite (decides_functional _ _ _ _ (scanHosts_decides _ _) Hd).
  by rewrite (decides_functional _ _ _ _ (scanTemplates_decides _ _) Ht).
Qed.

(** C10 (amended). [GetHostSafe] and [GetGatewaySafe] panic whenever the
    lookup under them returns an error. For [GetHostSafe] this happens
    when the first segment of the name is not an exact key and, in the
    order in which keys and aliases are tried, a malformed pattern comes
    before every pattern that matches the segment. *)
Theorem safe_lookups_panic_on_error fuel c nm :
  (∀ err, getHostByPath fuel c nm true true false = Err err →
          GetHostSafe fuel c nm = Panic err) ∧
  (∀ err, getHostByName fuel c nm true true false = Err err →
          GetGatewaySafe fuel c nm = Panic err) ∧
  (∀ segment pre pat host post,
     head (gostrings.SplitN2 nm "/") = Some segment →
     Hosts c !! segment = None →
     spec.hostPatterns (range ord (Hosts c)) = pre ++ (pat, host) :: post →
     Forall (λ p, path.Match p.1 segment = (false, None)) pre →
     path.parse pat = None →
     GetHostSafe fuel c nm = Panic ErrBadPattern).
Proof.
  split_and!.
  - intros err H. unfold config.GetHostSafe. fold (getHostByPath fuel c nm true true false).
    by rewrite H.
  - intros err H. unfold config.GetGatewaySafe. fold (getHostByName fuel c nm true true false).
    by rewrite H.
  - intros segment pre pat host post Hseg Hnone Hpats Hpre Hbad.
    unfold config.GetHostSafe, config.getHostByPath, getHostByPath_with.
    destruct (gostrings.SplitN2 nm "/") as [|part0 parts]; [done|].
    simpl in Hseg. injection Hseg as ->.
    fold (getHostByName fuel c segment true true false).
    rewrite (getHostByName_match_error_hosts _ _ _ _ _ _ ErrBadPattern); [done..|].
    rewrite Hpats. apply (spec.decides_error _ pre pat host post false); [done|].
    unfold path.Match. by rewrite Hbad.
Qed.

(** *** Inheritance through more than one level *)

(** C2 (amended). A parent is resolved with [computeHost] (without the
    defaults), which walks the parent's own [Inherits]: with a child that
    inherits from [p], where [p] inherits from [g], the address of the
    grandparent reaches the resolved child when neither the child nor
    the parent sets one. *)
Theorem computeHost_inherits_transitively fuel c host nm p g hostP hostG :
  Inherits host = [p] → Hosts c !! p = Some hostP →
  Inherits hostP = [g] → Hosts c !! g = Some hostG →
  Inherits hostG = [] →
  nm ≠ p → p ≠ g →
  gostrings.contains_byte "/" p = false →
  gostrings.contains_byte "/" g = false →
  HostName host = "" → HostName hostP = "" →
  HostName <$> computeHost (3 + fuel) host c nm false = Ok (HostName hostG).
Proof.
  intros Hi Hp HiP Hg HiG Hne1 Hne2 Hsp Hsg Hh HhP.
  change (3 + fuel) with (S (S (S fuel))).
  rewrite computeHost_S, Hi. simpl.
  rewrite decide_False by set_solver.
  unfold config.getHostByPath at 1. rewrite getHostByPath_with_bare by done.
  rewrite (getHostByName_with_exact _ _ _ hostP) by done.
  rewrite computeHost_S, HiP. simpl.
  rewrite decide_False by set_solver.
  unfold config.getHostByPath at 1. rewrite getHostByPath_with_bare by done.
  rewrite (getHostByName_with_exact _ _ _ hostG) by done.
  rewrite computeHost_S, HiG. simpl.
  rewrite Hh, HhP. simpl. done.
Qed.

End ResolutionFacts.

(** *** The lookups at concrete configurations *)

Lemma computeHost_inherits_transitively_witness :
  config.HostName examples.child = "" ∧ config.HostName examples.parent = "" ∧
  config.HostName <$> config.computeHost order_forward examples.noExpand 3
                 examples.child examples.threeLevels "child" false
  = Ok "1.2.3.4".
Proof.
  split; [reflexivity|]. split; [reflexivity|].
  apply (computeHost_inherits_transitively order_forward examples.noExpand 0
           examples.threeLevels examples.child "child" "parent" "grand"
           examples.parent examples.grand);
    by vm_compute.
Defined.

(** C2, as stated, fails: the resolved child carries the address that only
    the grandparent sets, where single-level inheritance leaves it empty. *)
Lemma one_level_inheritance_counterexample :
  config.HostName <$> config.computeHost order_forward examples.noExpand 3
                 examples.child examples.threeLevels "child" false
  = Ok "1.2.3.4" ∧
  config.HostName <$> spec.computeHostOneLevel order_forward
                 examples.child examples.threeLevels "child"
  = Ok "".
Proof. split; reflexivity. Qed.

(** C3, as stated, fails: with the virtual-host fallback allowed and no
    pattern matching, the order of the specification ends in a virtual
    host, the code in the error of the matcher. *)
Lemma resolution_order_counterexample :
  config.getHostByName order_forward examples.noExpand 1
    examples.badKey "x" true false false
  = Err ErrBadPattern ∧
  config.HostName <$> spec.resolveInOrder order_forward
    (λ h n fc, config.computeHost order_forward examples.noExpand 1 h examples.badKey n fc)
    examples.badKey "x" true false false
  = Ok "x".
Proof. split; reflexivity. Qed.

(** C10, as stated, fails: the configuration holds a malformed alias and
    the name is not an exact key, yet [GetHostSafe] returns, because the
    key of the host matches before the alias is tried. *)
Lemma GetHostSafe_returns_despite_malformed_alias :
  "[" ∈ config.Aliases examples.web ∧
  path.parse "[" = None ∧
  config.Hosts examples.badAlias !! "web1" = None ∧
  config.pattern <$> config.GetHostSafe order_forward examples.noExpand 1
                       examples.badAlias "web1"
  = Ok "web*".
Proof. split_and!; [set_solver|reflexivity..]. Qed.

Lemma safe_lookups_panic_on_error_witness :
  config.GetHostSafe order_forward examples.noExpand 1 examples.badKey "x"
  = Panic ErrBadPattern.
Proof.
  apply (proj2 (proj2 (safe_lookups_panic_on_error order_forward examples.noExpand
                         1 examples.badKey "x"))
           "x" [] "[" (examples.mkHost "[" "" [] []) []);
    by vm_compute.
Defined.

(** ** Staleness detector and known-host cache *)

Lemma elem_of_range {V} (ord : MapOrder) (m : gmap string V) (k : string) (v : V) :
  (k, v) ∈ range ord m ↔ m !! k = Some v.
Proof. rewrite (range_perm ord V m). apply elem_of_map_to_list. Qed.

Lemma Split_no_sep (c : ascii) (s : string) :
  gostrings.contains_byte c s = false → gostrings.Split s (String c "") = [s].
Proof.
  unfold gostrings.Split. induction s as [|d s IH]; simpl; [done|].
  destruct (ascii_dec c d) as [->|Hne].
  - rewrite decide_True by done. discriminate.
  - rewrite decide_False by done. intros H. by rewrite (IH H).
Qed.

(** A witness found in the tail of a list is a witness in the list, and a
    witness in the list that is not the head is one in the tail. *)
Local Ltac witness_in_tail IH Hm :=
  rewrite IH; split;
  [ intros (q & ? & ?); exists q; split; [by right|done]
  | intros (q & [->|?]%elem_of_cons & Hq); [congruence|eauto] ].

Lemma matchesSome_true (patterns : list string) (part : string) :
  config.matchesSome patterns part = true ↔
  ∃ pat, pat ∈ patterns ∧ path.Match pat part = (true, None).
Proof.
  induction patterns as [|pat patterns IH]; simpl.
  - split; [done|]. intros (? & Hin & _). by apply elem_of_nil in Hin.
  - destruct (path.Match pat part) as [[] [err|]] eqn:Hm;
      [witness_in_tail IH Hm| |witness_in_tail IH Hm..].
    split; [|done]. intros _. exists pat. split; [by left|done].
Qed.

Lemma matchPatterns_Found {A} (patterns : list string) (nm : string) (a b : A) :
  config.matchPatterns patterns nm a = config.Found b → b = a.
Proof.
  induction patterns as [|pat patterns IH]; simpl; [done|].
  destruct (path.Match pat nm) as [[] [err|]]; try done. congruence.
Qed.

Lemma scanHosts_Found (entries : list (string * config.Host)) (nm : string) host :
  config.scanHosts entries nm = config.Found host → ∃ key, (key, host) ∈ entries.
Proof.
  induction entries as [|[key h] entries IH]; [done|].
  change (config.scanHosts ((key, h) :: entries) nm)
    with (match config.matchPatterns (key :: config.Aliases h) nm h with
          | config.NotFound => config.scanHosts entries nm
          | decided => decided
          end).
  destruct (config.matchPatterns _ nm h) as [b|e|] eqn:Hm.
  - intros [= ->]. apply matchPatterns_Found in Hm as ->. exists key. by left.
  - done.
  - intros (k & ?)%IH. exists k. by right.
Qed.

Lemma patternList_hostPatterns (ord : MapOrder) (c : config.Config) :
  config.patternList ord c = (spec.hostPatterns (range ord (config.Hosts c))).*1.
Proof.
  unfold config.patternList, spec.hostPatterns.
  induction (range ord (config.Hosts c)) as [|[key h] entries IH]; [done|].
  simpl. rewrite fmap_app, <- IH. f_equal. f_equal.
  rewrite <- list_fmap_compose. simpl. by rewrite list_fmap_id.
Qed.

Lemma inheritLoop_pattern resolve parents computedHost h :
  config.inheritLoop resolve parents computedHost = Ok h →
  config.pattern h = config.pattern computedHost.
Proof.
  revert computedHost. induction parents as [|parent parents IH]; intros ch; simpl.
  - by intros [= ->].
  - case_decide; [apply IH|].
    destruct (resolve parent); try done; intros ->%IH; done.
Qed.

Lemma computeHost_pattern ord ExpandString fuel host c nm fullCompute h :
  config.computeHost ord ExpandString fuel host c nm fullCompute = Ok h →
  config.pattern h = config.pattern host.
Proof.
  destruct fuel as [|fuel]; [done|]. simpl.
  destruct (config.inheritLoop _ _ _) as [ch| | |] eqn:Hl; try done.
  simpl. intros [= <-]. apply inheritLoop_pattern in Hl. simpl in Hl.
  destruct fullCompute; [|done].
  unfold config.applyFullCompute. rewrite <- Hl.
  repeat case_match; done.
Qed.

Section StalenessFacts.

Import config.

Variable ord : MapOrder.
Variable ExpandString : Host → string → string.
Variable ExpandUser : string → result string.

Abbreviation needsARebuildForTarget := (config.needsARebuildForTarget ord).
Abbreviation IsConfigOutdated := (config.IsConfigOutdated ord ExpandString ExpandUser).
Abbreviation isSSHConfigOutdated := (config.isSSHConfigOutdated ord ExpandUser).

Lemma partsNeedRebuild_true c aliases patterns parts :
  partsNeedRebuild c aliases patterns parts = true ↔
  ∃ part, part ∈ parts ∧ Hosts c !! part = None ∧ (part ∉ aliases) ∧
          matchesSome patterns part = true.
Proof.
  induction parts as [|part parts IH]; simpl.
  - split; [done|]. intros (? & Hin & _). by apply elem_of_nil in Hin.
  - repeat case_decide.
    + rewrite IH. split.
      * intros (q & ? & ?). exists q. split; [by right|done].
      * intros (q & [->|?]%elem_of_cons & Hq & ?); [|eauto].
        rewrite Hq in *. by destruct H as [? [=]].
    + rewrite IH. split.
      * intros (q & ? & ?). exists q. split; [by right|done].
      * intros (q & [->|?]%elem_of_cons & ? & ? & ?); [done|eauto].
    + destruct (matchesSome patterns part) eqn:Hm.
      * split; [|done]. intros _. exists part. split_and!; try done; [by left|].
        by apply eq_None_not_Some.
      * rewrite IH. split.
        -- intros (q & ? & ?). exists q. split; [by right|done].
        -- intros (q & [->|?]%elem_of_cons & ? & ? & ?); [congruence|eauto].
Qed.

(** C9 (amended). The matcher errors only on a malformed pattern.
    [getHostByName] returns such an error to its caller, from the scan of
    the host keys and aliases and from the scan of the templates.
    [needsARebuildForTarget] does not: its result is a boolean that only
    depends on the patterns that match without error. *)
Theorem match_errors_in_lookups_and_staleness c :
  (∀ pat nm matched err,
     path.Match pat nm = (matched, Some err) →
     err = ErrBadPattern ∧ path.parse pat = None) ∧
  (∀ fuel nm safe compute allowTemplate err,
     Hosts c !! nm = None →
     spec.decides nm (spec.hostPatterns (range ord (Hosts c))) (Failed err) →
     config.getHostByName ord ExpandString fuel c nm safe compute allowTemplate = Err err) ∧
  (∀ fuel nm safe compute err,
     Hosts c !! nm = None →
     spec.decides nm (spec.hostPatterns (range ord (Hosts c))) NotFound →
     spec.decides nm (range ord (Templates c)) (Failed err) →
     config.getHostByName ord ExpandString fuel c nm safe compute true = Err err) ∧
  (∀ target,
     needsARebuildForTarget c target = true ↔
     ∃ part pat,
       part ∈ gostrings.Split target "/" ∧
       Hosts c !! part = None ∧ (part ∉ aliasSet ord c) ∧
       pat ∈ patternList ord c ∧ path.Match pat part = (true, None)).
Proof.
  split_and!.
  - intros pat nm matched err H.
    by apply Match_error_is_ErrBadPattern in H as (? & _ & ?).
  - intros. by apply getHostByName_match_error_hosts.
  - intros. by apply getHostByName_match_error_templates.
  - intros target. unfold config.needsARebuildForTarget.
    rewrite partsNeedRebuild_true. split.
    + intros (part & ? & ? & ? & (pat & ? & ?)%matchesSome_true). by exists part, pat.
    + intros (part & pat & ? & ? & ? & ? & ?). exists part. split_and!; try done.
      apply matchesSome_true. by exists pat.
Qed.

Lemma needsARebuildForTarget_bare c target :
  gostrings.contains_byte "/" target = false →
  needsARebuildForTarget c target =
    if decide (is_Some (Hosts c !! target)) then false
    else if decide (target ∈ aliasSet ord c) then false
    else matchesSome (patternList ord c) target.
Proof.
  intros H. unfold config.needsARebuildForTarget. rewrite Split_no_sep by done. simpl.
  repeat case_decide; try done. by destruct (matchesSome _ _).
Qed.

Lemma elem_of_aliasSet c key host target :
  Hosts c !! key = Some host → target ∈ knownHosts host → target ∈ aliasSet ord c.
Proof.
  intros Hk Ht. unfold aliasSet. apply elem_of_list_to_set, list_elem_of_In, in_flat_map.
  exists (key, host). split.
  - by apply list_elem_of_In, elem_of_range.
  - apply list_elem_of_In. simpl. apply elem_of_app. by right.
Qed.

(** A safe lookup of a bare name that is no exact key but is matched by
    some pattern returns a computation of a registered host. *)
Lemma GetHostSafe_bare_registered fuel c target host :
  gostrings.contains_byte "/" target = false →
  Hosts c !! target = None →
  matchesSome (patternList ord c) target = true →
  config.GetHostSafe ord ExpandString fuel c target = Ok host →
  ∃ key inst, Hosts c !! key = Some inst ∧ pattern host = pattern inst.
Proof.
  intros Hbare Hnone Hm Hsafe.
  unfold config.GetHostSafe, config.getHostByPath in Hsafe.
  rewrite getHostByPath_with_bare in Hsafe by done.
  unfold getHostByName_with in Hsafe. rewrite Hnone in Hsafe.
  destruct (scanHosts (range ord (Hosts c)) target) as [inst|err|] eqn:Hscan.
  - apply scanHosts_Found in Hscan as [key Hin%elem_of_range].
    exists key, inst. split; [done|].
    destruct (config.computeHost _ _ _ _ _ _ _) eqn:Hc; try done.
    simpl in Hsafe. injection Hsafe as ->. by apply computeHost_pattern in Hc.
  - done.
  - exfalso. pose proof (scanHosts_decides (range ord (Hosts c)) target) as Hd.
    rewrite Hscan in Hd. inversion Hd as [| |pats Hall]; subst.
    apply matchesSome_true in Hm as (pat & Hin & Hpat).
    rewrite patternList_hostPatterns in Hin.
    apply list_elem_of_fmap in Hin as ([pat' h] & -> & Hin).
    rewrite Forall_forall in Hall. specialize (Hall _ Hin). simpl in *. congruence.
Qed.

(** C4 (amended). For a slash-free target that is no exact key, no alias
    and no known host, but is matched by a key or alias pattern, and
    whose safe lookup returns: the first [IsConfigOutdated] reports stale
    and records the target with the host it resolved to, in memory and
    (when the cache file can be opened) as a new line of the file; a
    repeated call, whatever the iteration order and the fuel, no longer
    takes the dynamic-target branch and returns what
    [isSSHConfigOutdated] returns. *)
Theorem known_host_gating fuel c fs target host :
  spec.patternsAreKeys c →
  gostrings.contains_byte "/" target = false →
  Hosts c !! target = None →
  target ∉ aliasSet ord c →
  (∃ pat, pat ∈ patternList ord c ∧ path.Match pat target = (true, None)) →
  config.GetHostSafe ord ExpandString fuel c target = Ok host →
  ∃ inst,
    Hosts c !! pattern host = Some inst ∧
    let c' := set_Hosts (<[pattern host := AddKnownHost target inst]> (Hosts c)) c in
    let fs' := default fs
                 (appendLine fs
                    (match ExpandUser (ASSHKnownHostFile c) with
                     | Success p => p
                     | Failure _ => ""
                     end) target) in
    IsConfigOutdated fuel c fs target = Ok ((true, None), c', fs') ∧
    ∀ ord2 fuel2,
      config.IsConfigOutdated ord2 ExpandString ExpandUser fuel2 c' fs' target
      = Ok (config.isSSHConfigOutdated ord2 ExpandUser c' fs', c', fs').
Proof.
  intros Hinv Hbare Hnone Halias Hpat Hsafe.
  apply matchesSome_true in Hpat.
  destruct (GetHostSafe_bare_registered fuel c target host) as (key & inst & Hkey & Hp);
    [done..|].
  rewrite (Hinv _ _ Hkey) in Hp. rewrite Hp.
  exists inst. split; [done|]. split.
  - unfold config.IsConfigOutdated. rewrite needsARebuildForTarget_bare by done.
    rewrite decide_False by (rewrite Hnone; by intros [? [=]]).
    rewrite decide_False by done. rewrite Hpat.
    unfold SaveNewKnownHost, addKnownHost. rewrite Hsafe. simpl. rewrite Hp, Hkey. simpl.
    by destruct (appendLine _ _ _).
  - intros ord2 fuel2. unfold config.IsConfigOutdated.
    assert (config.needsARebuildForTarget ord2
              (set_Hosts (<[key:=AddKnownHost target inst]> (Hosts c)) c) target = false)
      as ->; [|done].
    unfold config.needsARebuildForTarget. rewrite Split_no_sep by done. simpl.
    case_decide; [done|]. rewrite decide_True; [done|].
    unfold aliasSet. apply elem_of_list_to_set, list_elem_of_In, in_flat_map.
    exists (key, AddKnownHost target inst). split.
    + apply list_elem_of_In, elem_of_range. simpl. apply lookup_insert_eq.
    + apply list_elem_of_In. simpl. set_solver.
Qed.

End StalenessFacts.

Lemma known_host_gating_witness :
  config.IsConfigOutdated order_forward examples.noExpand examples.plainPath 1
    examples.dynamic examples.sourceOlder "web1"
  = Ok ((true, None),
        config.set_Hosts
          {[ "web*" := config.AddKnownHost "web1" (examples.mkHost "web*" "srv" [] []) ]}
          examples.dynamic,
        default examples.sourceOlder
          (config.appendLine examples.sourceOlder "/home/u/.ssh/assh_known_hosts" "web1")).
Proof.
  destruct (known_host_gating order_forward examples.noExpand examples.plainPath 1
              examples.dynamic examples.sourceOlder "web1"
              (config.set_HostName "srv"
                 (config.set_inherited {["web1"]}
                    (config.set_name "web1" (examples.mkHost "web*" "srv" [] [])))))
    as (inst & Hinst & Hfirst & _).
  - intros key host Hk. unfold examples.dynamic in Hk. simpl in Hk.
    apply lookup_singleton_Some in Hk as [<- <-]. reflexivity.
  - reflexivity.
  - reflexivity.
  - vm_compute. set_solver.
  - exists "web*". split; [vm_compute; set_solver|reflexivity].
  - reflexivity.
  - vm_compute in Hinst. injection Hinst as <-. exact Hfirst.
Defined.

(** C4, as stated, fails: with a source file newer than the generated
    file, the call repeated on the state the first call left, with every
    modification time of a source or of the generated file as before,
    reports stale again. *)
Lemma repeated_call_still_stale :
  ∃ c' fs',
    config.IsConfigOutdated order_forward examples.noExpand examples.plainPath 1
      examples.dynamic examples.sourceNewer "web1" = Ok ((true, None), c', fs') ∧
    config.modTime fs' !! "/home/u/.ssh/assh.yml"
      = config.modTime examples.sourceNewer !! "/home/u/.ssh/assh.yml" ∧
    config.modTime fs' !! "/home/u/.ssh/config"
      = config.modTime examples.sourceNewer !! "/home/u/.ssh/config" ∧
    config.lines fs' !! "/home/u/.ssh/assh_known_hosts" = Some ["web1"] ∧
    config.needsARebuildForTarget order_forward c' "web1" = false ∧
    config.IsConfigOutdated order_forward examples.noExpand examples.plainPath 1
      c' fs' "web1" = Ok ((true, None), c', fs').
Proof. eexists _, _. split; [reflexivity|]. split_and!; reflexivity. Qed.

(** C9, as stated, fails: on a configuration whose only key is a malformed
    pattern the lookup returns the error of the matcher, the staleness
    detector returns without any error. *)
Lemma staleness_detector_swallows_match_error :
  path.Match "[" "x" = (false, Some ErrBadPattern) ∧
  config.getHostByName order_forward examples.noExpand 1 examples.badKey "x" false false true
  = Err ErrBadPattern ∧
  config.IsConfigOutdated order_forward examples.noExpand examples.plainPath 1
    (config.set_Hosts (config.Hosts examples.badKey) examples.dynamic)
    examples.sourceOlder "x"
  = Ok ((false, None),
        config.set_Hosts (config.Hosts examples.badKey) examples.dynamic,
        examples.sourceOlder).
Proof. split_and!; reflexivity. Qed.

(** ** Serializer *)

Lemma string_app_assoc (a b c : string) : (a +:+ b) +:+ c = a +:+ (b +:+ c).
Proof.
  induction a as [|x a IH]; [done|].
  change ((String x a +:+ b) +:+ c) with (String x ((a +:+ b) +:+ c)).
  change (String x a +:+ b +:+ c) with (String x (a +:+ b +:+ c)).
  by rewrite IH.
Qed.

Lemma string_app_nil_r (a : string) : a +:+ "" = a.
Proof.
  induction a as [|x a IH]; [done|].
  change (String x a +:+ "") with (String x (a +:+ "")). by rewrite IH.
Qed.

Lemma string_app_nil_l (a : string) : "" +:+ a = a.
Proof. reflexivity. Qed.








Lemma SplitN2_nonempty (s sep : string) : gostrings.SplitN2 s sep ≠ [].
Proof. unfold gostrings.SplitN2. by destruct (gostrings.cut sep s) as [[? ?]|]. Qed.

Lemma inheritLoop_no_panic resolve parents computedHost :
  (∀ parent e, resolve parent ≠ Panic e) →
  ∀ e, config.inheritLoop resolve parents computedHost ≠ Panic e ∧
       config.inheritLoop resolve parents computedHost ≠ Err e.
Proof.
  intros Hres. revert computedHost. induction parents as [|parent parents IH]; intros ch e.
  - done.
  - simpl. case_decide; [apply IH|].
    destruct (resolve parent) eqn:Hr; try apply IH; [|done].
    by destruct (Hres parent e0).
Qed.

Lemma getHostByName_with_cases ord compute_host c nm safe compute allowTemplate :
  (∃ h, config.getHostByName_with ord compute_host c nm safe compute allowTemplate
        = compute_host h nm compute) ∨
  (∃ e, config.getHostByName_with ord compute_host c nm safe compute allowTemplate = Err e).
Proof. unfold config.getHostByName_with. repeat case_match; eauto. Qed.

Lemma getHostByPath_no_panic ord ExpandString fuel c path safe compute allowTemplate e :
  (∀ host nm fullCompute,
     (∃ h, config.computeHost ord ExpandString fuel host c nm fullCompute = Ok h) ∨
     config.computeHost ord ExpandString fuel host c nm fullCompute = OutOfFuel) →
  config.getHostByPath ord ExpandString fuel c path safe compute allowTemplate ≠ Panic e.
Proof.
  intros IH Hp. unfold config.getHostByPath, config.getHostByPath_with in Hp.
  pose proof (SplitN2_nonempty path "/").
  destruct (gostrings.SplitN2 path "/") as [|seg parts]; [done|].
  match type of Hp with context [config.getHostByName_with ?o ?f ?c ?n ?s ?cp ?a] =>
    destruct (getHostByName_with_cases o f c n s cp a) as [[h Hn]|[e' Hn]];
    rewrite Hn in Hp end.
  - destruct (IH h seg compute) as [[h' Hc]|Hc]; rewrite Hc in Hp; simpl in Hp;
      by destruct parts.
  - done.
Qed.

(** [computeHost] returns a host or does not return: its error result is
    always nil, and it does not panic on a non-nil host. *)
Lemma computeHost_Ok_or_OutOfFuel ord ExpandString fuel host c nm fullCompute :
  (∃ h, config.computeHost ord ExpandString fuel host c nm fullCompute = Ok h) ∨
  config.computeHost ord ExpandString fuel host c nm fullCompute = OutOfFuel.
Proof.
  revert host nm fullCompute. induction fuel as [|fuel IH]; intros host nm fullCompute.
  - by right.
  - rewrite computeHost_S.
    match goal with |- context [config.inheritLoop ?r ?p ?ch] =>
      pose proof (inheritLoop_no_panic r p ch) as Hno;
      destruct (config.inheritLoop r p ch) as [h|e|e|] eqn:Hl end.
    + left. simpl. eauto.
    + exfalso. refine (proj2 (Hno _ e) eq_refl).
      intros parent e'. by apply getHostByPath_no_panic.
    + exfalso. refine (proj1 (Hno _ e) eq_refl).
      intros parent e'. by apply getHostByPath_no_panic.
    + by right.
Qed.









Section SerializerFacts.

Import config.

Variable ExpandString : Host → string → string.
Variable VERSION : string.
Variable Host_WriteSSHConfigTo : Host → string.

Abbreviation WriteSSHConfigTo ord :=
  (config.WriteSSHConfigTo ord ExpandString VERSION Host_WriteSSHConfigTo).
Abbreviation writeHosts ord :=
  (config.writeHosts ord ExpandString Host_WriteSSHConfigTo).

Abbreviation blockOf ord := (spec.blockOf ord ExpandString).

Lemma writeHosts_Ok ord fuel c names w out :
  writeHosts ord fuel c names w = Ok out ↔
  ∃ hosts, Forall2 (blockOf ord fuel c) names hosts ∧
           out = w +:+ foldr (λ h rest, Host_WriteSSHConfigTo h +:+ newline +:+ rest) "" hosts.
Proof.
  revert w out. induction names as [|nm names IH]; intros w out; simpl.
  - split.
    + intros [= <-]. exists []. split; [constructor|]. simpl. by rewrite string_app_nil_r.
    + intros (hosts & Hf & ->). apply Forall2_nil_inv_l in Hf as ->.
      simpl. by rewrite string_app_nil_r.
  - destruct (Hosts c !! nm) as [raw|] eqn:Hraw.
    + destruct (config.computeHost ord ExpandString fuel raw c nm false) as [h| | |] eqn:Hc; simpl.
      * rewrite IH. unfold Fprintln. split.
        -- intros (hosts & Hf & ->). exists (h :: hosts). split.
           ++ constructor; [by exists raw|done].
           ++ simpl. by rewrite !string_app_assoc.
        -- intros (hosts & Hf & ->).
           apply Forall2_cons_inv_l in Hf as (h' & hosts' & (raw' & Hr' & Hc') & Hf & ->).
           rewrite Hraw in Hr'. injection Hr' as <-.
           rewrite Hc in Hc'. injection Hc' as <-.
           exists hosts'. split; [done|].
           simpl. by rewrite !string_app_assoc.
      * split; [done|]. intros (hosts & Hf & _).
        apply Forall2_cons_inv_l in Hf as (h' & hosts' & (raw' & Hr' & Hc') & _ & _).
        rewrite Hraw in Hr'. injection Hr' as <-. by rewrite Hc in Hc'.
      * split; [done|]. intros (hosts & Hf & _).
        apply Forall2_cons_inv_l in Hf as (h' & hosts' & (raw' & Hr' & Hc') & _ & _).
        rewrite Hraw in Hr'. injection Hr' as <-. by rewrite Hc in Hc'.
      * split; [done|]. intros (hosts & Hf & _).
        apply Forall2_cons_inv_l in Hf as (h' & hosts' & (raw' & Hr' & Hc') & _ & _).
        rewrite Hraw in Hr'. injection Hr' as <-. by rewrite Hc in Hc'.
    + split; [done|]. intros (hosts & Hf & _).
      apply Forall2_cons_inv_l in Hf as (h' & hosts' & (raw' & Hr' & _) & _ & _).
      by rewrite Hraw in Hr'.
Qed.

Lemma prologue_text (hd : string) :
  Fprintln (Fprintln (Fprintln "" hd) "") "# host-based configuration"
  = hd +:+ newline +:+ newline +:+ "# host-based configuration" +:+ newline.
Proof.
  unfold Fprintln. rewrite !string_app_assoc.
  by rewrite !string_app_nil_l.
Qed.

Lemma WriteSSHConfigTo_Ok ord fuel c buildDate out c' :
  WriteSSHConfigTo ord fuel c buildDate = Ok (out, c') ↔
  ∃ hosts,
    Forall2 (blockOf ord fuel c) (config.sortedNames ord c) hosts ∧
    out = spec.layout (config.header VERSION buildDate) Host_WriteSSHConfigTo
            hosts (set_name "*" (Defaults c)) ∧
    c' = set_Defaults (set_name "*" (Defaults c)) c.
Proof.
  unfold config.WriteSSHConfigTo, spec.layout.
  generalize (config.header VERSION buildDate). intros hd.
  rewrite prologue_text.
  pose proof (writeHosts_Ok ord fuel c (config.sortedNames ord c)
                (hd +:+ newline +:+ newline +:+ "# host-based configuration" +:+ newline))
    as Hw.
  destruct (config.writeHosts ord ExpandString Host_WriteSSHConfigTo fuel c
              (config.sortedNames ord c)
              (hd +:+ newline +:+ newline +:+ "# host-based configuration" +:+ newline))
    as [w'|e|e|].
  - destruct (proj1 (Hw w') eq_refl) as (hosts & Hf & ->).
    cbn [mbind outcome_bind]. unfold Fprintln. split.
    + intros [= <- <-]. exists hosts. split_and!; [done| |done].
      rewrite !string_app_assoc. reflexivity.
    + intros (hosts' & Hf' & -> & ->).
      assert (Ok (A:=string)
                ((hd +:+ newline +:+ newline +:+ "# host-based configuration" +:+ newline) +:+
                 foldr (λ h rest, Host_WriteSSHConfigTo h +:+ newline +:+ rest) "" hosts)
              = Ok ((hd +:+ newline +:+ newline +:+ "# host-based configuration" +:+ newline) +:+
                    foldr (λ h rest, Host_WriteSSHConfigTo h +:+ newline +:+ rest) "" hosts'))
        as Heq by (apply Hw; eauto).
      injection Heq as Heq. rewrite Heq.
      rewrite !string_app_assoc. reflexivity.
  - split; [done|]. intros (hosts & Hf & _).
    exfalso. eassert (Err e = Ok _) as Habs by (apply Hw; eauto). done.
  - split; [done|]. intros (hosts & Hf & _).
    exfalso. eassert (Panic e = Ok _) as Habs by (apply Hw; eauto). done.
  - split; [done|]. intros (hosts & Hf & _).
    exfalso. eassert (OutOfFuel = Ok _) as Habs by (apply Hw; eauto). done.
Qed.






End SerializerFacts.

(** *** The serializer at concrete configurations *)

Example render_threeLevels :
  fst <$> config.WriteSSHConfigTo order_backward examples.noExpand examples.version
            examples.plainBlock 3 examples.threeLevels "2026-01-01 00:00:00 +0000 UTC"
  = Ok ("# This file was automatically generated by assh v2.7.0" +:+ newline +:+
        "# on 2026-01-01 00:00:00 +0000 UTC, based on ~/.ssh/assh.yml" +:+ newline +:+
        "#" +:+ newline +:+
        "# more info: https://github.com/noqqe/advanced-ssh-config" +:+ newline +:+
        newline +:+
        "# host-based configuration" +:+ newline +:+
        "Host child" +:+ newline +:+ "  HostName 1.2.3.4" +:+ newline +:+ newline +:+
        "Host grand" +:+ newline +:+ "  HostName 1.2.3.4" +:+ newline +:+ newline +:+
        "Host parent" +:+ newline +:+ "  HostName 1.2.3.4" +:+ newline +:+ newline +:+
        "# global configuration" +:+ newline +:+
        "Host *" +:+ newline +:+ "  HostName " +:+ newline).
Proof. vm_compute. reflexivity. Qed.




Lemma match_errors_in_lookups_and_staleness_witness :
  config.getHostByName order_forward examples.noExpand 1 examples.badKey "x" true true false
  = Err ErrBadPattern.
Proof.
  apply (proj1 (proj2 (match_errors_in_lookups_and_staleness order_forward
                         examples.noExpand examples.badKey))).
  - reflexivity.
  - apply (spec.decides_error "x" [] "[" (examples.mkHost "[" "" [] []) [] false);
      [constructor|reflexivity].
Defined.

(** ** Further properties of the hook dispatcher *)

Section HooksMore.

Context {RunArgs World : Type}.
Variables NewWriteDriver NewExecDriver NewDaemonDriver
  : string → result (hooks.HookDriver RunArgs World).

Abbreviation HookDriver' := (hooks.HookDriver RunArgs World).
Abbreviation New' := (hooks.New RunArgs World NewWriteDriver NewExecDriver NewDaemonDriver).
Abbreviation instantiate' :=
  (hooks.instantiate RunArgs World NewWriteDriver NewExecDriver NewDaemonDriver).
Abbreviation InvokeAll' :=
  (hooks.InvokeAll RunArgs World NewWriteDriver NewExecDriver NewDaemonDriver).

Lemma closeAll_visits (drivers : list HookDriver') i w errs trace :
  (hooks.closeAll RunArgs World drivers i w errs trace).2
    = trace ++ (hooks.CallClose <$> seq i (length drivers)) ∧
  ∃ more, (hooks.closeAll RunArgs World drivers i w errs trace).1.1 = errs ++ more ∧
          length more ≤ length drivers.
Proof.
  revert i w errs trace. induction drivers as [|d ds IH]; intros i w errs trace; simpl.
  - rewrite app_nil_r. split; [done|]. exists []. by rewrite app_nil_r.
  - destruct (hooks.Close _ _ d w) as [[err|] w'].
    + destruct (IH (S i) w' (errs ++ [err]) (trace ++ [hooks.CallClose i]))
        as (-> & more & -> & Hlen).
      split; [by rewrite <- app_assoc|].
      exists (err :: more). rewrite <- app_assoc. split; [done|simpl; lia].
    + destruct (IH (S i) w' errs (trace ++ [hooks.CallClose i]))
        as (-> & more & -> & Hlen).
      split; [by rewrite <- app_assoc|].
      exists more. split; [done|lia].
Qed.

(** X1. [HookDrivers.Close] calls [Close] on every driver of the slice,
    in order, whether or not an earlier one failed, and returns at most
    one error per driver. *)
Theorem HookDrivers_Close_visits_every_driver (hd : list HookDriver') (w : World) :
  (hooks.HookDrivers_Close RunArgs World hd w).2
    = hooks.CallClose <$> seq 0 (length hd) ∧
  length (hooks.HookDrivers_Close RunArgs World hd w).1.1 ≤ length hd.
Proof.
  unfold hooks.HookDrivers_Close.
  destruct (closeAll_visits hd 0 w [] []) as (-> & more & -> & Hlen). done.
Qed.

Lemma instantiate_Success h (acc drivers : list HookDriver') :
  instantiate' h acc = Success drivers →
  ∃ new, drivers = acc ++ new ∧ Forall2 (λ expr d, New' expr = Success d) h new.
Proof.
  revert acc. induction h as [|expr h IH]; intros acc; simpl.
  - intros [= <-]. exists []. by rewrite app_nil_r.
  - destruct (New' expr) as [d|err] eqn:Hd; [|done].
    intros (new & -> & Hnew)%IH. exists (d :: new).
    rewrite <- app_assoc. split; [done|by constructor].
Qed.

Lemma runAll_no_error (drivers : list HookDriver') i args w trace :
  (hooks.runAll RunArgs World drivers i args w trace).1.1 = None →
  (hooks.runAll RunArgs World drivers i args w trace).2
    = trace ++ (hooks.CallRun <$> seq i (length drivers)).
Proof.
  revert i w trace. induction drivers as [|d ds IH]; intros i w trace; simpl.
  - by rewrite app_nil_r.
  - destruct (hooks.Run _ _ d args w) as [[err|] w']; [done|].
    intros ->%IH. by rewrite <- app_assoc.
Qed.

(** X2. When [InvokeAll] returns without error, the drivers it returns are
    the instantiations of the hook expressions, one per expression and in
    the order of the list, and [Run] has been called once on each of
    them, in that order. *)
Theorem InvokeAll_success (h : list string) (args : RunArgs) (w w' : World)
    (drivers : list HookDriver') (trace : list hooks.call) :
  InvokeAll' h args w = ((drivers, None), w', trace) →
  Forall2 (λ expr d, New' expr = Success d) h drivers ∧
  trace = hooks.CallRun <$> seq 0 (length h).
Proof.
  unfold hooks.InvokeAll.
  destruct (instantiate' h []) as [ds|err] eqn:Hi; [|done].
  apply instantiate_Success in Hi as (new & -> & Hnew). simpl.
  pose proof (runAll_no_error new 0 args w []) as Hrun.
  destruct (hooks.runAll RunArgs World new 0 args w []) as [[[err|] w1] tr]; [done|].
  intros [= <- <- <-]. split; [done|].
  rewrite (Forall2_length _ _ _ Hnew). by apply Hrun.
Qed.

Lemma split_go_nonempty sep skip s : gostrings.split_go sep skip s ≠ [].
Proof.
  revert skip. induction s as [|c s IH]; intros skip; [done|].
  cbn [gostrings.split_go]. destruct skip; [|apply IH].
  destruct (String.prefix sep (String c s)); [done|].
  by destruct (gostrings.split_go sep 0 s).
Qed.

Lemma prefix_empty (s : string) : String.prefix "" s = true.
Proof. by destruct s. Qed.

(** [strings.Join] undoes [strings.Split] for a separator of one byte. *)
Lemma Join_Split (c : ascii) (s : string) :
  gostrings.Join (gostrings.Split s (String c "")) (String c "") = s.
Proof.
  unfold gostrings.Split. induction s as [|d s IH]; [done|].
  cbn [gostrings.split_go String.prefix String.length Nat.sub].
  destruct (ascii_dec c d) as [->|Hne].
  - rewrite prefix_empty.
    pose proof (split_go_nonempty (String d "") 0 s) as Hne.
    destruct (gostrings.split_go (String d "") 0 s) as [|p ps] eqn:Hs; [done|].
    change (gostrings.Join ("" :: p :: ps) (String d ""))
      with (String d (gostrings.Join (p :: ps) (String d ""))).
    by rewrite IH.
  - destruct (gostrings.split_go (String c "") 0 s) as [|p ps] eqn:Hs.
    { by destruct (split_go_nonempty (String c "") 0 s). }
    rewrite <- IH. by destruct ps.
Qed.

Lemma Split_first_word (c : ascii) (word rest : string) :
  gostrings.contains_byte c word = false →
  gostrings.Split (word +:+ String c rest) (String c "")
  = word :: gostrings.Split rest (String c "").
Proof.
  unfold gostrings.Split. induction word as [|d word IH].
  - intros _. change ("" +:+ String c rest) with (String c rest).
    cbn [gostrings.split_go String.prefix String.length Nat.sub].
    destruct (ascii_dec c c); [|done]. by rewrite prefix_empty.
  - change (String d word +:+ String c rest) with (String d (word +:+ String c rest)).
    cbn [gostrings.contains_byte gostrings.split_go String.prefix].
    case_decide as Hcd; [done|]. intros Hw.
    destruct (ascii_dec c d); [done|]. by rewrite IH.
Qed.

Lemma New_split (kind param : string) :
  gostrings.contains_byte " " kind = false →
  let dispatch p :=
    if decide (kind = "write") then NewWriteDriver p
    else if decide (kind = "exec") then NewExecDriver p
    else if decide (kind = "daemon") then NewDaemonDriver p
    else Failure (Errorf ("No such driver " +:+ kind)) in
  New' (kind +:+ " " +:+ param) = dispatch param ∧ New' kind = dispatch "".
Proof.
  intros Hkind dispatch. unfold hooks.New.
  change (" " +:+ param) with (String " " param).
  rewrite (Split_first_word " " kind param Hkind), (Split_no_sep " " kind Hkind).
  cbn [head tail default]. by rewrite (Join_Split " " param).
Qed.

(** X3. [New] hands the text after the first space to the constructor
    chosen by the first word, unchanged (later spaces included); a kind
    without any parameter gives the empty parameter, and a first word that
    is none of the three kinds fails without any constructor being asked. *)
Theorem New_dispatch (kind param : string) :
  gostrings.contains_byte " " kind = false →
  (kind = "write" → New' (kind +:+ " " +:+ param) = NewWriteDriver param ∧
                     New' kind = NewWriteDriver "") ∧
  (kind = "exec" → New' (kind +:+ " " +:+ param) = NewExecDriver param ∧
                    New' kind = NewExecDriver "") ∧
  (kind = "daemon" → New' (kind +:+ " " +:+ param) = NewDaemonDriver param ∧
                      New' kind = NewDaemonDriver "") ∧
  (kind ≠ "write" → kind ≠ "exec" → kind ≠ "daemon" →
   ∃ err, New' (kind +:+ " " +:+ param) = Failure err ∧ New' kind = Failure err).
Proof.
  intros Hkind. destruct (New_split kind param Hkind) as [-> ->].
  split_and!.
  - by intros ->.
  - by intros ->.
  - by intros ->.
  - intros H1 H2 H3. rewrite !decide_False by done. eauto.
Qed.

End HooksMore.

Lemma InvokeAll_success_witness :
  Forall2 (λ expr d, examples.logNew expr = Success d)
    ["write /tmp/x"; "write /tmp/y"]
    [examples.logDriver "/tmp/x" false; examples.logDriver "/tmp/y" false] ∧
  [hooks.CallRun 0; hooks.CallRun 1] = hooks.CallRun <$> seq 0 2.
Proof.
  apply (InvokeAll_success _ _ _ ["write /tmp/x"; "write /tmp/y"] tt []
           ["run /tmp/x"; "run /tmp/y"]).
  reflexivity.
Defined.

Lemma New_dispatch_witness :
  examples.logNew "write /tmp/a b  c" = Success (examples.logDriver "/tmp/a b  c" false).
Proof.
  exact (proj1 (proj1 (New_dispatch
                         (λ p, Success (examples.logDriver p false))
                         (λ p, Success (examples.logDriver p true))
                         (λ p, Failure (Errorf "daemon: cannot connect"))
                         "write" "/tmp/a b  c" eq_refl) eq_refl)).
Defined.

(** ** Further properties of the lookups *)

Lemma cut_first (c : ascii) (segment rest : string) :
  gostrings.contains_byte c segment = false →
  gostrings.cut (String c "") (segment +:+ String c rest) = Some (segment, rest).
Proof.
  induction segment as [|d segment IH].
  - intros _. change ("" +:+ String c rest) with (String c rest).
    cbn [gostrings.cut String.prefix String.length gostrings.drop].
    destruct (ascii_dec c c); [|done]. by rewrite prefix_empty.
  - change (String d segment +:+ String c rest)
      with (String d (segment +:+ String c rest)).
    cbn [gostrings.contains_byte gostrings.cut String.prefix].
    case_decide as Hcd; [done|]. intros Hs.
    destruct (ascii_dec c d); [done|]. by rewrite IH.
Qed.

Lemma inheritLoop_visited resolve parents computedHost h :
  config.inheritLoop resolve parents computedHost = Ok h →
  config.name h = config.name computedHost ∧
  config.inherited computedHost ⊆ config.inherited h ∧
  ∀ parent, parent ∈ parents → parent ∈ config.inherited h.
Proof.
  revert computedHost. induction parents as [|parent parents IH]; intros ch; simpl.
  - intros [= ->]. split_and!; [done|done|]. by intros ? ?%elem_of_nil.
  - assert (∀ ch', config.name ch' = config.name ch →
                   parent ∈ config.inherited ch' →
                   config.inherited ch ⊆ config.inherited ch' →
                   config.inheritLoop resolve parents ch' = Ok h →
                   config.name h = config.name ch ∧
                   config.inherited ch ⊆ config.inherited h ∧
                   ∀ p, p ∈ parent :: parents → p ∈ config.inherited h) as Hstep.
    { intros ch' Hn' Hin' Hsub' Hl. destruct (IH ch' Hl) as (Hn & Hsub & Hall).
      split_and!; [congruence|by transitivity (config.inherited ch')|].
      intros p [->|Hp]%elem_of_cons; [by apply Hsub|by apply Hall]. }
    case_decide as Hin; [by apply Hstep|].
    destruct (resolve parent); try done; apply Hstep; simpl;
      first [done | by apply elem_of_union_l, elem_of_singleton
            | apply union_subseteq_r].
Qed.

Lemma inheritLoop_app resolve parents more computedHost :
  config.inheritLoop resolve (parents ++ more) computedHost
  = (h ← config.inheritLoop resolve parents computedHost;
     config.inheritLoop resolve more h).
Proof.
  revert computedHost. induction parents as [|parent parents IH]; intros ch; [done|].
  simpl. case_decide; [apply IH|].
  destruct (resolve parent); try done; apply IH.
Qed.

(** X20. The visited-set guard of the loop of [computeHost] over
    [host.Inherits]: a parent that is the host's own name (or any name
    already visited), or that stands earlier in the list, is passed over
    without being resolved or merged again; the result is that of the
    list without this entry, whatever the parents resolve to. *)
Theorem inheritLoop_repeated_parent resolve parents parent more computedHost :
  parent ∈ config.inherited computedHost ∨ parent ∈ parents →
  config.inheritLoop resolve (parents ++ parent :: more) computedHost
  = config.inheritLoop resolve (parents ++ more) computedHost.
Proof.
  intros Hseen. rewrite !inheritLoop_app.
  destruct (config.inheritLoop resolve parents computedHost) as [h| | |] eqn:Hl; try done.
  apply inheritLoop_visited in Hl as (_ & Hsub & Hall). simpl.
  rewrite decide_True; [done|]. destruct Hseen as [Hin|Hin]; [by apply Hsub|by apply Hall].
Qed.

Lemma inheritLoop_repeated_parent_witness :
  config.inheritLoop (λ _, Ok examples.grand) ["parent"; "parent"] examples.child
  = config.inheritLoop (λ _, Ok examples.grand) ["parent"] examples.child.
Proof.
  apply (inheritLoop_repeated_parent (λ _, Ok examples.grand) ["parent"] "parent" []
           examples.child).
  right. by left.
Defined.

Lemma applyFullCompute_identity ExpandString c nm h :
  config.name (config.applyFullCompute ExpandString c nm h) = config.name h ∧
  config.pattern (config.applyFullCompute ExpandString c nm h) = config.pattern h ∧
  config.inherited (config.applyFullCompute ExpandString c nm h) = config.inherited h.
Proof. unfold config.applyFullCompute. repeat case_match; done. Qed.

Lemma decides_Failed_inv nm pats err :
  spec.decides nm pats (config.Failed err) →
  ∃ p matched, p ∈ pats ∧ path.Match p.1 nm = (matched, Some err).
Proof.
  intros Hd. inversion Hd as [|pre pat host post m e Hpre Hm|]; subst.
  exists (pat, host), m. split; [|done].
  apply elem_of_app. right. by left.
Qed.

Section ResolutionMore.

Import config.

Variable ord : MapOrder.
Variable ExpandString : Host → string → string.

Abbreviation computeHost' := (config.computeHost ord ExpandString).
Abbreviation getHostByName' := (config.getHostByName ord ExpandString).
Abbreviation getHostByPath' := (config.getHostByPath ord ExpandString).

Lemma getHostByPath_first_slash fuel c segment rest safe compute allowTemplate :
  gostrings.contains_byte "/" segment = false →
  getHostByPath' fuel c (segment +:+ "/" +:+ rest) safe compute allowTemplate
  = set_Gateways [rest] <$> getHostByName' fuel c segment safe compute allowTemplate.
Proof.
  intros Hseg. unfold config.getHostByPath, getHostByPath_with, gostrings.SplitN2.
  change ("/" +:+ rest) with (String "/" rest). rewrite cut_first by done.
  fold (getHostByName' fuel c segment safe compute allowTemplate).
  by destruct (getHostByName' fuel c segment safe compute allowTemplate).
Qed.

(** X4. A path-form name is split at its first slash only: the part
    before it is resolved as a name and everything after it, further
    slashes included, becomes the single gateway of the result,
    replacing the gateways the host had. A name without a slash is
    resolved as it is and keeps the gateways of the host. *)
Theorem getHostByPath_gateway fuel c segment rest safe compute allowTemplate :
  gostrings.contains_byte "/" segment = false →
  getHostByPath' fuel c (segment +:+ "/" +:+ rest) safe compute allowTemplate
  = set_Gateways [rest] <$> getHostByName' fuel c segment safe compute allowTemplate ∧
  getHostByPath' fuel c segment safe compute allowTemplate
  = getHostByName' fuel c segment safe compute allowTemplate.
Proof.
  intros Hseg. split.
  - by apply getHostByPath_first_slash.
  - by apply getHostByPath_with_bare.
Qed.

(** X5. A host returned by [computeHost] carries the requested name, keeps
    the [pattern] of the entry it was computed from, and its visited-set
    holds the requested name and every declared parent. *)
Theorem computeHost_identity fuel host c nm fullCompute h :
  computeHost' fuel host c nm fullCompute = Ok h →
  name h = nm ∧ pattern h = pattern host ∧
  nm ∈ inherited h ∧ ∀ parent, parent ∈ Inherits host → parent ∈ inherited h.
Proof.
  intros Hc. pose proof (computeHost_pattern _ _ _ _ _ _ _ _ Hc) as Hp.
  destruct fuel as [|fuel]; [done|]. rewrite computeHost_S in Hc.
  match type of Hc with context [inheritLoop ?r ?p ?ch] =>
    destruct (inheritLoop r p ch) as [ch'| | |] eqn:Hl; try done end.
  apply inheritLoop_visited in Hl as (Hn & Hsub & Hall). simpl in *.
  injection Hc as <-.
  destruct (applyFullCompute_identity ExpandString c nm ch') as (En & _ & Ei).
  destruct fullCompute.
  - rewrite En, Ei. split_and!; [done|done| |done].
    by apply Hsub, elem_of_singleton.
  - split_and!; [done|done| |done].
    by apply Hsub, elem_of_singleton.
Qed.

(** The lookup errors without [computeHost] being reached, with the error
    of the matcher on a malformed pattern or with the not-found error. *)
Lemma getHostByName_Err fuel c nm safe compute allowTemplate err :
  getHostByName' fuel c nm safe compute allowTemplate = Err err →
  Hosts c !! nm = None ∧
  ((err = ErrBadPattern ∧
    ∃ p, (p ∈ spec.hostPatterns (range ord (Hosts c)) ∨
          (allowTemplate = true ∧ p ∈ range ord (Templates c))) ∧
         path.parse p.1 = None) ∨
   (safe = false ∧ err = Errorf ("no such host: " +:+ nm) ∧
    spec.decides nm (spec.hostPatterns (range ord (Hosts c))) NotFound)).
Proof.
  unfold config.getHostByName, getHostByName_with.
  assert (∀ h n fc, config.computeHost ord ExpandString fuel h c n fc ≠ Err err) as Hno.
  { intros h n fc Hc.
    destruct (computeHost_Ok_or_OutOfFuel ord ExpandString fuel h c n fc) as [[? ?]|?];
      congruence. }
  assert (∀ pats e, spec.decides nm pats (Failed e) →
            e = ErrBadPattern ∧ ∃ p, p ∈ pats ∧ path.parse p.1 = None) as Hbad.
  { intros pats e (p & m & Hin & Hm)%decides_Failed_inv.
    apply Match_error_is_ErrBadPattern in Hm as (-> & _ & Hparse). eauto. }
  destruct (Hosts c !! nm); [intros Hc; by apply Hno in Hc|].
  pose proof (scanHosts_decides (range ord (Hosts c)) nm) as Hd.
  destruct (scanHosts (range ord (Hosts c)) nm) as [h|e|].
  { intros Hc. by apply Hno in Hc. }
  { intros [= ->]. split; [done|]. left.
    destruct (Hbad _ _ Hd) as (-> & p & Hin & Hp). split; [done|]. exists p. eauto. }
  assert (safe = true ∨ safe = false) as [->| ->] by (destruct safe; eauto).
  - destruct allowTemplate; [|intros Hc; by apply Hno in Hc].
    pose proof (scanTemplates_decides (range ord (Templates c)) nm) as Ht.
    destruct (scanTemplates (range ord (Templates c)) nm) as [h|e|];
      [intros Hc; by apply Hno in Hc| |intros Hc; by apply Hno in Hc].
    intros [= ->]. split; [done|]. left.
    destruct (Hbad _ _ Ht) as (-> & p & Hin & Hp). split; [done|]. exists p. eauto.
  - destruct allowTemplate.
    + pose proof (scanTemplates_decides (range ord (Templates c)) nm) as Ht.
      destruct (scanTemplates (range ord (Templates c)) nm) as [h|e|].
      * intros Hc. by apply Hno in Hc.
      * intros [= ->]. split; [done|]. left.
        destruct (Hbad _ _ Ht) as (-> & p & Hin & Hp). split; [done|]. exists p. eauto.
      * intros [= <-]. split; [done|]. by right.
    + intros [= <-]. split; [done|]. by right.
Qed.

(** X6. The safe lookups panic with nothing but the error of the matcher,
    and only when some key or alias of [Hosts] is a malformed pattern:
    with well-formed keys and aliases neither of them panics. *)
Theorem safe_lookups_panic_only_on_bad_pattern fuel c nm err :
  config.GetHostSafe ord ExpandString fuel c nm = Panic err ∨
  config.GetGatewaySafe ord ExpandString fuel c nm = Panic err →
  err = ErrBadPattern ∧
  ∃ pat, pat ∈ patternList ord c ∧ path.parse pat = None.
Proof.
  assert (∀ seg, getHostByName' fuel c seg true true false = Err err →
            err = ErrBadPattern ∧
            ∃ pat, pat ∈ patternList ord c ∧ path.parse pat = None) as Hname.
  { intros seg (_ & [(-> & p & [Hin|[[=] _]] & Hp)|([=] & _)])%getHostByName_Err.
    split; [done|]. exists p.1. split; [|done].
    rewrite patternList_hostPatterns. by apply list_elem_of_fmap_2. }
  intros [Hp|Hp].
  - unfold config.GetHostSafe in Hp. fold (getHostByPath' fuel c nm true true false) in Hp.
    destruct (getHostByPath' fuel c nm true true false) as [h|e|e|] eqn:Hpath; try done.
    + injection Hp as ->. unfold config.getHostByPath, getHostByPath_with in Hpath.
      destruct (gostrings.SplitN2 nm "/") as [|seg parts]; [done|].
      fold (getHostByName' fuel c seg true true false) in Hpath.
      destruct (getHostByName' fuel c seg true true false) as [h|e|e|] eqn:Hn;
        try done.
      * by destruct parts.
      * injection Hpath as ->. by apply (Hname seg).
    + exfalso. eapply getHostByPath_no_panic; [|exact Hpath].
      intros. apply computeHost_Ok_or_OutOfFuel.
  - unfold config.GetGatewaySafe in Hp. fold (getHostByName' fuel c nm true true false) in Hp.
    destruct (getHostByName' fuel c nm true true false) as [h|e|e|] eqn:Hn; try done.
    + injection Hp as ->. by apply (Hname nm).
    + exfalso. unfold config.getHostByName in Hn.
      match type of Hn with config.getHostByName_with ?o ?f ?c ?n ?s ?cp ?a = _ =>
        destruct (getHostByName_with_cases o f c n s cp a) as [[h Hh]|[e' Hh]];
        rewrite Hh in Hn end; [|done].
      destruct (computeHost_Ok_or_OutOfFuel ord ExpandString fuel h c nm true)
        as [[? ?]|?]; congruence.
Qed.


End ResolutionMore.

Lemma getHostByPath_gateway_witness :
  config.Gateways <$> config.getHostByPath order_forward examples.noExpand 1
                        examples.badAlias "web1/gw1/gw2" false false false
  = Ok ["gw1/gw2"].
Proof.
  pose proof (proj1 (getHostByPath_gateway order_forward examples.noExpand 1
                       examples.badAlias "web1" "gw1/gw2" false false false eq_refl))
    as Hsplit.
  change ("web1" +:+ "/" +:+ "gw1/gw2") with "web1/gw1/gw2" in Hsplit.
  rewrite Hsplit. reflexivity.
Defined.

Lemma computeHost_identity_witness :
  ∃ h, config.computeHost order_forward examples.noExpand 3 examples.child
         examples.threeLevels "kid" false = Ok h ∧
       config.name h = "kid" ∧ config.pattern h = "child" ∧
       "kid" ∈ config.inherited h ∧ "parent" ∈ config.inherited h.
Proof.
  destruct (config.computeHost order_forward examples.noExpand 3 examples.child
              examples.threeLevels "kid" false) as [h| | |] eqn:Hc;
    [|by vm_compute in Hc..].
  destruct (computeHost_identity order_forward examples.noExpand 3 examples.child
              examples.threeLevels "kid" false h Hc) as (Hn & Hp & Hs & Hall).
  exists h. split; [reflexivity|]. split; [exact Hn|]. split; [exact Hp|].
  split; [exact Hs|]. apply Hall. by left.
Defined.

Lemma safe_lookups_panic_only_on_bad_pattern_witness :
  ErrBadPattern = ErrBadPattern ∧
  ∃ pat, pat ∈ config.patternList order_forward examples.badKey ∧ path.parse pat = None.
Proof.
  apply (safe_lookups_panic_only_on_bad_pattern order_forward examples.noExpand 1
           examples.badKey "x" ErrBadPattern).
  left. reflexivity.
Defined.


(** ** Further properties of the staleness detector *)

Lemma elem_of_aliasSet_iff ord c x :
  x ∈ config.aliasSet ord c ↔
  ∃ key host, config.Hosts c !! key = Some host ∧
              (x ∈ config.Aliases host ∨ x ∈ config.knownHosts host).
Proof.
  unfold config.aliasSet. rewrite elem_of_list_to_set, list_elem_of_In, in_flat_map.
  split.
  - intros ([key host] & Hin%list_elem_of_In%elem_of_range & Hx%list_elem_of_In).
    exists key, host. split; [done|]. by apply elem_of_app in Hx.
  - intros (key & host & Hk & Hx). exists (key, host). split.
    + by apply list_elem_of_In, elem_of_range.
    + apply list_elem_of_In. by apply elem_of_app.
Qed.

Lemma elem_of_patternList_iff ord c pat :
  pat ∈ config.patternList ord c ↔
  ∃ key host, config.Hosts c !! key = Some host ∧
              (pat = key ∨ pat ∈ config.Aliases host).
Proof.
  unfold config.patternList. rewrite list_elem_of_In, in_flat_map. split.
  - intros ([key host] & Hin%list_elem_of_In%elem_of_range & Hx%list_elem_of_In).
    exists key, host. split; [done|]. simpl in Hx.
    apply elem_of_cons in Hx as [->|Hx]; eauto.
  - intros (key & host & Hk & Hx). exists (key, host). split.
    + by apply list_elem_of_In, elem_of_range.
    + apply list_elem_of_In. simpl. destruct Hx as [->|Hx]; [by left|by right].
Qed.

Lemma needsARebuildForTarget_true_iff ord c target :
  config.needsARebuildForTarget ord c target = true ↔
  ∃ part pat key host,
    part ∈ gostrings.Split target "/" ∧
    config.Hosts c !! part = None ∧
    (∀ k h, config.Hosts c !! k = Some h →
            (part ∉ config.Aliases h) ∧ (part ∉ config.knownHosts h)) ∧
    config.Hosts c !! key = Some host ∧
    (pat = key ∨ pat ∈ config.Aliases host) ∧
    path.Match pat part = (true, None).
Proof.
  unfold config.needsARebuildForTarget. rewrite partsNeedRebuild_true. split.
  - intros (part & Hpart & Hnone & Halias & (pat & Hpat & Hm)%matchesSome_true).
    apply elem_of_patternList_iff in Hpat as (key & host & Hk & Hp).
    exists part, pat, key, host. split_and!; try done.
    intros k h Hkh. split; intros Hin; apply Halias, elem_of_aliasSet_iff; eauto.
  - intros (part & pat & key & host & Hpart & Hnone & Halias & Hk & Hp & Hm).
    exists part. split_and!; try done.
    + intros (k & h & Hkh & [Hin|Hin])%elem_of_aliasSet_iff;
        by destruct (Halias k h Hkh).
    + apply matchesSome_true. exists pat. split; [|done].
      apply elem_of_patternList_iff. eauto.
Qed.

(** X8. Whether a target needs a rebuild does not depend on the order in
    which the maps are iterated: it is decided by the set of keys, aliases
    and known hosts alone. *)
Theorem needsARebuildForTarget_order_irrelevant ord1 ord2 c target :
  config.needsARebuildForTarget ord1 c target
  = config.needsARebuildForTarget ord2 c target.
Proof.
  pose proof (needsARebuildForTarget_true_iff ord1 c target) as H1.
  pose proof (needsARebuildForTarget_true_iff ord2 c target) as H2.
  destruct (config.needsARebuildForTarget ord1 c target),
           (config.needsARebuildForTarget ord2 c target); try done.
  - symmetry. apply H2, H1. done.
  - apply H1, H2. done.
Qed.

Lemma newerThan_all_stat fs t0 (files : list (string * bool)) :
  (∀ f b, (f, b) ∈ files → is_Some (config.modTime fs !! f)) →
  ∃ outdated,
    config.newerThan fs t0 files = (outdated, None) ∧
    (outdated = true ↔
     ∃ f b t, (f, b) ∈ files ∧ config.modTime fs !! f = Some t ∧ (t0 < t)%Z).
Proof.
  induction files as [|[f b] files IH]; intros Hstat.
  - exists false. split; [done|]. split; [done|].
    intros (? & ? & ? & Hin & _). by apply elem_of_nil in Hin.
  - destruct (Hstat f b) as [t Ht]; [by left|].
    simpl. unfold config.Stat. rewrite Ht.
    destruct (Z.ltb_spec t0 t) as [Hlt|Hge].
    + exists true. split; [done|]. split; [|done]. intros _. exists f, b, t.
      split; [by left|done].
    + destruct IH as (outdated & -> & Hiff).
      { intros f' b' Hin. apply (Hstat f' b'). by right. }
      exists outdated. split; [done|]. rewrite Hiff. split.
      * intros (f' & b' & t' & Hin & Ht' & Hlt). exists f', b', t'.
        split; [by right|done].
      * intros (f' & b' & t' & [[= -> ->]|Hin]%elem_of_cons & Ht' & Hlt).
        -- rewrite Ht in Ht'. injection Ht' as <-. lia.
        -- eauto 10.
Qed.

Section StalenessMore.

Import config.

Variable ord : MapOrder.
Variable ExpandString : Host → string → string.
Variable ExpandUser : string → result string.

(** X9. When the generated file and every file recorded in
    [includedFiles] can be stat'ed, [isSSHConfigOutdated] returns no error
    and reports outdated exactly when some recorded file, whether it is
    marked as loaded or not, has a modification time strictly after that
    of the generated file; the iteration order plays no part. *)
Theorem isSSHConfigOutdated_newer_source c fs filepath t0 :
  ExpandUser (sshConfigPath c) = Success filepath →
  modTime fs !! filepath = Some t0 →
  (∀ f, is_Some (includedFiles c !! f) → is_Some (modTime fs !! f)) →
  ∃ outdated,
    config.isSSHConfigOutdated ord ExpandUser c fs = (outdated, None) ∧
    (outdated = true ↔
     ∃ f t, is_Some (includedFiles c !! f) ∧ modTime fs !! f = Some t ∧ (t0 < t)%Z).
Proof.
  intros Hpath Ht0 Hstat. unfold config.isSSHConfigOutdated, Stat.
  rewrite Hpath, Ht0.
  destruct (newerThan_all_stat fs t0 (range ord (includedFiles c)))
    as (outdated & -> & Hiff).
  { intros f b Hin%elem_of_range. apply Hstat. eauto. }
  exists outdated. split; [done|]. rewrite Hiff. split.
  - intros (f & b & t & Hin%elem_of_range & Ht & Hlt). exists f, t. eauto.
  - intros (f & t & [b Hb] & Ht & Hlt). exists f, b, t.
    split; [by apply elem_of_range|done].
Qed.

(** For a target that is an exact key the answer is that of the
    source-freshness check. *)
Lemma IsConfigOutdated_registered fuel c fs target :
  gostrings.contains_byte "/" target = false →
  is_Some (Hosts c !! target) →
  config.IsConfigOutdated ord ExpandString ExpandUser fuel c fs target
  = Ok (config.isSSHConfigOutdated ord ExpandUser c fs, c, fs).
Proof.
  intros Hbare Hkey. unfold config.IsConfigOutdated.
  rewrite needsARebuildForTarget_bare by done. by rewrite decide_True.
Qed.

(** X10. When the generated file cannot be stat'ed (it does not exist
    yet), a target that is an exact key of [Hosts] is reported as not
    outdated, together with the error of the stat; the configuration and
    the files are left as they were. *)
Theorem IsConfigOutdated_missing_output fuel c fs target filepath :
  gostrings.contains_byte "/" target = false →
  is_Some (Hosts c !! target) →
  ExpandUser (sshConfigPath c) = Success filepath →
  modTime fs !! filepath = None →
  config.IsConfigOutdated ord ExpandString ExpandUser fuel c fs target
  = Ok ((false,
         Some (Errorf ("stat " +:+ filepath +:+ ": no such file or directory"))),
        c, fs).
Proof.
  intros Hbare Hkey Hpath Hstat. rewrite IsConfigOutdated_registered by done.
  unfold config.isSSHConfigOutdated, Stat. by rewrite Hpath, Hstat.
Qed.

(** X11. The cache does not gate a path-form target. For a target
    "segment/rest" whose segment is no key, no alias and no known host but
    is matched by a pattern, the first [IsConfigOutdated] records the
    whole target, while the check looks for the segment: after the call
    the target still needs a rebuild, whatever the iteration order. *)
Theorem path_target_never_gated fuel c fs segment rest host :
  spec.patternsAreKeys c →
  gostrings.contains_byte "/" segment = false →
  Hosts c !! segment = None →
  segment ∉ aliasSet ord c →
  (∃ pat, pat ∈ patternList ord c ∧ path.Match pat segment = (true, None)) →
  config.GetHostSafe ord ExpandString fuel c (segment +:+ "/" +:+ rest) = Ok host →
  ∃ c' fs',
    config.IsConfigOutdated ord ExpandString ExpandUser fuel c fs
      (segment +:+ "/" +:+ rest) = Ok ((true, None), c', fs') ∧
    (∃ key inst, Hosts c' !! key = Some inst ∧
                 segment +:+ "/" +:+ rest ∈ knownHosts inst) ∧
    ∀ ord2, config.needsARebuildForTarget ord2 c' (segment +:+ "/" +:+ rest) = true.
Proof.
  intros Hinv Hbare Hnone Halias (pat & Hpat & Hm) Hsafe.
  assert (∃ h0, config.GetHostSafe ord ExpandString fuel c segment = Ok h0 ∧
                pattern host = pattern h0) as (h0 & Hsafe0 & Hp0).
  { pose proof Hsafe as Hsafe'. unfold config.GetHostSafe in Hsafe' |- *.
    rewrite (getHostByPath_first_slash ord ExpandString fuel c segment rest
               true true false Hbare) in Hsafe'.
    unfold config.getHostByPath. rewrite getHostByPath_with_bare by done.
    fold (config.getHostByName ord ExpandString fuel c segment true true false).
    destruct (config.getHostByName ord ExpandString fuel c segment true true false)
      as [h0| | |]; try done.
    simpl in Hsafe'. injection Hsafe' as <-. by exists h0. }
  set (target := segment +:+ "/" +:+ rest) in *.
  assert (gostrings.Split target "/" = segment :: gostrings.Split rest "/") as Hsplit.
  { by apply (Split_first_word "/"). }
  assert (segment ≠ target) as Hneq.
  { intros Heq. assert (gostrings.contains_byte "/" target = true) as Hc.
    { unfold target. clear -Hbare. induction segment as [|d s IH]; [done|].
      change (String d s +:+ "/" +:+ rest) with (String d (s +:+ "/" +:+ rest)).
      simpl in *. case_decide; [done|]. by apply IH. }
    rewrite <- Heq in Hc. congruence. }
  destruct (GetHostSafe_bare_registered ord ExpandString fuel c segment h0)
    as (key & inst & Hkey & Hpk); [done|done| |done|].
  { apply matchesSome_true. eauto. }
  rewrite (Hinv _ _ Hkey) in Hpk. rewrite Hpk in Hp0.
  assert (config.needsARebuildForTarget ord c target = true) as Hfirst.
  { apply needsARebuildForTarget_true_iff.
    apply elem_of_patternList_iff in Hpat as (k & h & Hk & Hp).
    exists segment, pat, k, h. rewrite Hsplit. split_and!; try done; [by left|].
    intros k' h' Hk'. split; intros Hin; apply Halias, elem_of_aliasSet_iff; eauto. }
  exists (set_Hosts (<[key := AddKnownHost target inst]> (Hosts c)) c),
         (default fs
            (appendLine fs
               (match ExpandUser (ASSHKnownHostFile c) with
                | Success p => p
                | Failure _ => ""
                end) target)).
  split_and!.
  - unfold config.IsConfigOutdated. rewrite Hfirst.
    unfold SaveNewKnownHost, addKnownHost. rewrite Hsafe. simpl.
    rewrite Hp0, Hkey. simpl. by destruct (appendLine _ _ _).
  - exists key, (AddKnownHost target inst). simpl. split; [apply lookup_insert_eq|].
    apply elem_of_app. right. by left.
  - intros ord2. apply needsARebuildForTarget_true_iff.
    apply elem_of_patternList_iff in Hpat as (k & h & Hk & Hp).
    assert (key ≠ segment) as Hks by (intros ->; congruence).
    destruct (decide (k = key)) as [->|Hkk].
    + rewrite Hkey in Hk. injection Hk as <-.
      exists segment, pat, key, (AddKnownHost target inst).
      rewrite Hsplit. simpl. split_and!; try done; [by left|by rewrite lookup_insert_ne| |
                                                    apply lookup_insert_eq].
      intros k' h' Hk'. destruct (decide (k' = key)) as [->|Hne].
      * rewrite lookup_insert_eq in Hk'. injection Hk' as <-. simpl. split.
        -- intros Hin. apply Halias, elem_of_aliasSet_iff. eauto.
        -- intros [Hin|Hin]%elem_of_app.
           ++ apply Halias, elem_of_aliasSet_iff. eauto.
           ++ by apply list_elem_of_singleton in Hin.
      * rewrite lookup_insert_ne in Hk' by done.
        split; intros Hin; apply Halias, elem_of_aliasSet_iff; eauto.
    + exists segment, pat, k, h.
      rewrite Hsplit. simpl. split_and!; try done; [by left|by rewrite lookup_insert_ne| |
                                                    by rewrite lookup_insert_ne].
      intros k' h' Hk'. destruct (decide (k' = key)) as [->|Hne].
      * rewrite lookup_insert_eq in Hk'. injection Hk' as <-. simpl. split.
        -- intros Hin. apply Halias, elem_of_aliasSet_iff. eauto.
        -- intros [Hin|Hin]%elem_of_app.
           ++ apply Halias, elem_of_aliasSet_iff. eauto.
           ++ by apply list_elem_of_singleton in Hin.
      * rewrite lookup_insert_ne in Hk' by done.
        split; intros Hin; apply Halias, elem_of_aliasSet_iff; eauto.
Qed.

End StalenessMore.

Lemma isSSHConfigOutdated_newer_source_witness :
  config.isSSHConfigOutdated order_forward examples.plainPath examples.dynamic
    examples.sourceNewer = (true, None).
Proof.
  destruct (isSSHConfigOutdated_newer_source order_forward examples.plainPath
              examples.dynamic examples.sourceNewer "/home/u/.ssh/config" 5%Z)
    as (outdated & Hout & Hiff).
  - reflexivity.
  - vm_compute. reflexivity.
  - intros f [b Hb]. simpl in Hb. apply lookup_singleton_Some in Hb as [<- _].
    eexists. vm_compute. reflexivity.
  - rewrite Hout. f_equal. apply Hiff. exists "/home/u/.ssh/assh.yml", 10%Z.
    split_and!; [eexists; vm_compute; reflexivity|vm_compute; reflexivity|lia].
Defined.

Lemma IsConfigOutdated_missing_output_witness :
  config.IsConfigOutdated order_forward examples.noExpand examples.plainPath 1
    examples.threeLevels examples.sourceNewer "child"
  = Ok ((false, Some (Errorf "stat ~/.ssh/config: no such file or directory")),
        examples.threeLevels, examples.sourceNewer).
Proof.
  apply (IsConfigOutdated_missing_output order_forward examples.noExpand examples.plainPath
           1 examples.threeLevels examples.sourceNewer "child" "~/.ssh/config").
  - reflexivity.
  - eexists. vm_compute. reflexivity.
  - reflexivity.
  - vm_compute. reflexivity.
Defined.

Lemma path_target_never_gated_witness :
  ∃ c' fs',
    config.IsConfigOutdated order_forward examples.noExpand examples.plainPath 1
      examples.dynamic examples.sourceOlder "web1/gw" = Ok ((true, None), c', fs') ∧
    ∀ ord2, config.needsARebuildForTarget ord2 c' "web1/gw" = true.
Proof.
  assert (∃ host, config.GetHostSafe order_forward examples.noExpand 1 examples.dynamic
                    "web1/gw" = Ok host)
    as [host Hsafe] by (eexists; vm_compute; reflexivity).
  assert (spec.patternsAreKeys examples.dynamic) as Hkeys.
  { intros key h Hk. unfold examples.dynamic in Hk. simpl in Hk.
    apply lookup_singleton_Some in Hk as [<- <-]. reflexivity. }
  assert ("web1" ∉ config.aliasSet order_forward examples.dynamic) as Halias.
  { clear. vm_compute. set_solver. }
  assert (∃ pat, pat ∈ config.patternList order_forward examples.dynamic ∧
                 path.Match pat "web1" = (true, None)) as Hpat.
  { clear. exists "web*". split; [vm_compute; set_solver|vm_compute; reflexivity]. }
  destruct (path_target_never_gated order_forward examples.noExpand examples.plainPath 1
              examples.dynamic examples.sourceOlder "web1" "gw" host
              Hkeys eq_refl eq_refl Halias Hpat Hsafe)
    as (c' & fs' & Hfirst & _ & Hagain).
  exists c', fs'. split; [exact Hfirst|exact Hagain].
Defined.

(** ** Saving, reloading and naming *)

Section PersistFacts.

Import config.

Variable ord : MapOrder.
Variable ExpandString : Host → string → string.
Variable ExpandUser : string → result string.

Abbreviation addKnownHost' := (config.addKnownHost ord ExpandString).
Abbreviation addKnownHosts' := (persist.addKnownHosts ord ExpandString).
Abbreviation LoadKnownHosts' := (persist.LoadKnownHosts ord ExpandString ExpandUser).





Variable VERSION : string.
Variable Host_WriteSSHConfigTo : Host → string.

(** X13. A successful [SaveSSHConfig] writes the rendered text to the
    expanded [sshConfigPath], and clears the source-freshness trigger:
    if every recorded source file can be stat'ed and is not dated after
    the time of the write, [isSSHConfigOutdated] then reports not
    outdated, without error, whatever the iteration order. *)
Theorem SaveSSHConfig_clears_staleness fuel c fs buildDate c' fs' :
  persist.SaveSSHConfig ord ExpandString ExpandUser VERSION Host_WriteSSHConfigTo
    fuel c fs buildDate = Ok (c', fs', None) →
  (∀ f, is_Some (includedFiles c !! f) →
        ∃ t, modTime fs !! f = Some t ∧ (t ≤ clock fs)%Z) →
  (∃ filepath text,
     ExpandUser (sshConfigPath c) = Success filepath ∧
     config.WriteSSHConfigTo ord ExpandString VERSION Host_WriteSSHConfigTo
       fuel c buildDate = Ok (text, c') ∧
     lines fs' !! filepath = Some (persist.textLines text) ∧
     modTime fs' !! filepath = Some (clock fs)) ∧
  ∀ ord2, config.isSSHConfigOutdated ord2 ExpandUser c' fs' = (false, None).
Proof.
  unfold persist.SaveSSHConfig. intros Hsave Hsources.
  case_decide as Hempty; [done|].
  destruct (ExpandUser (sshConfigPath c)) as [filepath|err] eqn:Hpath; [|done].
  case_decide as Hcreate; [done|].
  destruct (config.WriteSSHConfigTo _ _ _ _ _ _ _) as [[text c1]| | |] eqn:Hwrite;
    try done.
  simpl in Hsave. injection Hsave as <- <-.
  apply WriteSSHConfigTo_Ok in Hwrite as Hshape. destruct Hshape as (hosts & _ & _ & ->).
  split.
  - exists filepath, text. split_and!; [done|done|apply lookup_insert_eq..].
  - intros ord2. unfold config.isSSHConfigOutdated, Stat.
    cbn [sshConfigPath includedFiles set_Defaults].
    rewrite Hpath. cbn [modTime persist.writeFile]. rewrite lookup_insert_eq.
    destruct (newerThan_all_stat (persist.writeFile fs filepath text) (clock fs)
                (range ord2 (includedFiles c))) as (outdated & -> & Hiff).
    + intros f b Hin%elem_of_range. simpl. destruct (decide (f = filepath)) as [->|Hne].
      * rewrite lookup_insert_eq. eauto.
      * rewrite lookup_insert_ne by done.
        destruct (Hsources f) as (t & -> & _); eauto.
    + destruct outdated; [|done]. exfalso.
      destruct (proj1 Hiff eq_refl) as (f & b & t & Hf%elem_of_range & Ht & Hlt).
      simpl in *. destruct (decide (f = filepath)) as [->|Hne].
      * rewrite lookup_insert_eq in Ht. injection Ht as <-. lia.
      * rewrite lookup_insert_ne in Ht by done.
        destruct (Hsources f) as (t' & Ht' & Hle); [eauto|]. rewrite Ht in Ht'.
        injection Ht' as <-. lia.
Qed.

End PersistFacts.


Lemma SaveSSHConfig_clears_staleness_witness :
  ∃ c' fs',
    persist.SaveSSHConfig order_forward examples.noExpand examples.plainPath
      examples.version examples.plainBlock 2 examples.dynamic examples.sourceNewer "today"
    = Ok (c', fs', None) ∧
    ∀ ord2, config.isSSHConfigOutdated ord2 examples.plainPath c' fs' = (false, None).
Proof.
  assert (∃ c' fs',
            persist.SaveSSHConfig order_forward examples.noExpand examples.plainPath
              examples.version examples.plainBlock 2 examples.dynamic examples.sourceNewer
              "today" = Ok (c', fs', None))
    as (c' & fs' & Hsave) by (eexists _, _; vm_compute; reflexivity).
  exists c', fs'. split; [exact Hsave|].
  apply (SaveSSHConfig_clears_staleness order_forward examples.noExpand examples.plainPath
           examples.version examples.plainBlock 2 examples.dynamic examples.sourceNewer
           "today" c' fs' Hsave).
  intros f [b Hb]. simpl in Hb. apply lookup_singleton_Some in Hb as [<- _].
  exists 10%Z. split; [vm_compute; reflexivity|]. simpl. lia.
Defined.

(** *** The loader's naming pass *)

Lemma nameHost_fixed key host :
  loader.nameHost key (Some (loader.nameHost key host)) = loader.nameHost key host.
Proof. reflexivity. Qed.

Lemma applyMissingNames_Hosts c key :
  loader.Hosts (loader.document (loader.applyMissingNames c)) !! key
  = (λ host, Some (loader.nameHost key host))
      <$> loader.Hosts (loader.document c) !! key.
Proof.
  simpl. rewrite map_lookup_imap.
  by destruct (loader.Hosts (loader.document c) !! key).
Qed.

Lemma applyMissingNames_Templates c key :
  loader.Templates (loader.document (loader.applyMissingNames c)) !! key
  = (λ template, Some (loader.nameTemplate key template))
      <$> loader.Templates (loader.document c) !! key.
Proof.
  simpl. rewrite map_lookup_imap.
  by destruct (loader.Templates (loader.document c) !! key).
Qed.


(** ** The loader *)

Section LoaderFacts.

Variable ExpandUser : string → result string.
Variable Unmarshal : list string → loader.Document → loader.Document * option error.
Variable Glob : config.FileSystem → string → result (list string).

Abbreviation LoadFile' := (loader.LoadFile ExpandUser Unmarshal Glob).
Abbreviation LoadFiles_with' := (loader.LoadFiles_with ExpandUser Glob).
Abbreviation LoadConfig' := (loader.LoadConfig Unmarshal).

Abbreviation keepsMarks := loader.keepsMarks.
Abbreviation pendingFiles := (loader.pendingFiles ExpandUser).

Lemma keepsMarks_refl st : keepsMarks st st.
Proof. by intros f b. Qed.

Lemma keepsMarks_trans st1 st2 st3 :
  keepsMarks st1 st2 → keepsMarks st2 st3 → keepsMarks st1 st3.
Proof. intros H12 H23 f b Hf. by apply H23, H12. Qed.

Lemma LoadConfig_includedFiles c source :
  loader.includedFiles (LoadConfig' c source).1 = loader.includedFiles c.
Proof.
  unfold loader.LoadConfig. by destruct (Unmarshal source (loader.document c)) as [d [err|]].
Qed.

Lemma loadMatches_keepsMarks loadFile st filepaths st' :
  (∀ st0 f st1 err, loadFile st0 f = Ok (st1, err) → keepsMarks st0 st1) →
  loader.loadMatches loadFile st filepaths = Ok st' → keepsMarks st st'.
Proof.
  intros Hfile. revert st. induction filepaths as [|f filepaths IH]; intros st; simpl.
  - intros [= <-]. apply keepsMarks_refl.
  - destruct (loadFile st f) as [[st1 err]| | |] eqn:Hf; try done. simpl.
    intros Hrest. eapply keepsMarks_trans; [by eapply Hfile|by apply IH].
Qed.

Lemma LoadFiles_with_keepsMarks loadFile fs st pattern st' err :
  (∀ st0 f st1 err, loadFile st0 f = Ok (st1, err) → keepsMarks st0 st1) →
  LoadFiles_with' loadFile fs st pattern = Ok (st', err) → keepsMarks st st'.
Proof.
  intros Hfile. unfold loader.LoadFiles_with.
  destruct (ExpandUser pattern) as [expanded|e]; [|intros [= <- _]; apply keepsMarks_refl].
  destruct (Glob fs expanded) as [filepaths|e]; [|intros [= <- _]; apply keepsMarks_refl].
  destruct (loader.loadMatches loadFile st filepaths) as [[c bin]| | |] eqn:Hm; try done.
  apply loadMatches_keepsMarks in Hm; [|done]. simpl.
  case_decide; [by intros [= <- _]|].
  destruct (ExpandUser _); intros [= <- _]; [|done].
  intros f b Hf. by apply Hm.
Qed.

Lemma loadIncludes_keepsMarks loadFiles st includes st' err :
  (∀ st0 p st1 err, loadFiles st0 p = Ok (st1, err) → keepsMarks st0 st1) →
  loader.loadIncludes loadFiles st includes = Ok (st', err) → keepsMarks st st'.
Proof.
  intros Hfiles. revert st. induction includes as [|p includes IH]; intros st; simpl.
  - intros [= <- _]. apply keepsMarks_refl.
  - destruct (loadFiles st p) as [[st1 [e|]]| | |] eqn:Hp; try done; simpl.
    + intros [= <- _]. by eapply Hfiles.
    + intros Hrest. eapply keepsMarks_trans; [by eapply Hfiles|by apply IH].
Qed.

Lemma LoadFile_keepsMarks fuel fs st filename st' err :
  LoadFile' fuel fs st filename = Ok (st', err) → keepsMarks st st'.
Proof.
  revert st filename st' err.
  induction fuel as [|fuel IH]; intros st filename st' err; [done|].
  simpl. destruct (ExpandUser filename) as [filepath|e];
    [|intros [= <- _]; apply keepsMarks_refl].
  case_decide as Hin; [intros [= <- _]; apply keepsMarks_refl|].
  assert (∀ (c : loader.Config) v,
            loader.includedFiles c = loader.includedFiles st.1 ∨
            loader.includedFiles c = <[filepath := false]> (loader.includedFiles st.1) →
            keepsMarks st
              (loader.set_includedFiles (<[filepath := v]> (loader.includedFiles c)) c, st.2))
    as Hmark.
  { intros c v Hc f b Hf. simpl.
    assert (f ≠ filepath) as Hne by (intros ->; apply Hin; eauto).
    rewrite lookup_insert_ne by done.
    destruct Hc as [-> | ->]; [done|]. by rewrite lookup_insert_ne. }
  destruct (config.lines fs !! filepath) as [source|].
  - pose proof (LoadConfig_includedFiles
                  (loader.set_includedFiles
                     (<[filepath := false]> (loader.includedFiles st.1)) st.1) source) as Hcfg.
    destruct (LoadConfig' _ source) as [c [e|]]; simpl in Hcfg.
    + intros [= <- _]. intros f b Hf. simpl. rewrite Hcfg.
      assert (f ≠ filepath) as Hne by (intros ->; apply Hin; eauto).
      by rewrite lookup_insert_ne.
    + intros Hinc. eapply keepsMarks_trans; [apply (Hmark c true); by right|].
      eapply loadIncludes_keepsMarks; [|exact Hinc].
      intros st0 p st1 err0. apply LoadFiles_with_keepsMarks. apply IH.
  - intros [= <- _]. apply (Hmark st.1 false). by left.
Qed.

(** X15. [LoadFile] never changes the mark of a file that was already
    recorded in [includedFiles], in this call or in any nested one. A
    file not yet recorded ends up marked: true when it was read and
    parsed, false when it could not be opened or did not parse, in which
    case the error returned is the one of the open or of the parse. *)
Theorem LoadFile_marks fuel fs st filename filepath st' err :
  ExpandUser filename = Success filepath →
  loader.LoadFile ExpandUser Unmarshal Glob fuel fs st filename = Ok (st', err) →
  (∀ f b, loader.includedFiles st.1 !! f = Some b →
          loader.includedFiles st'.1 !! f = Some b) ∧
  (loader.includedFiles st.1 !! filepath = None →
   match config.lines fs !! filepath with
   | None => loader.includedFiles st'.1 !! filepath = Some false ∧ is_Some err
   | Some source =>
       match (Unmarshal source (loader.document st.1)).2 with
       | Some e => loader.includedFiles st'.1 !! filepath = Some false ∧ err = Some e
       | None => loader.includedFiles st'.1 !! filepath = Some true
       end
   end).
Proof.
  intros Hpath Hload. split; [by eapply LoadFile_keepsMarks|].
  intros Hnew. destruct fuel as [|fuel]; [done|]. simpl in Hload.
  rewrite Hpath in Hload. rewrite decide_False in Hload by (rewrite Hnew; by intros [? ?]).
  destruct (config.lines fs !! filepath) as [source|].
  - unfold loader.LoadConfig in Hload. cbn [loader.document loader.set_includedFiles] in Hload.
    destruct (Unmarshal source (loader.document st.1)) as [d [e|]]; simpl in *.
    + injection Hload as <- <-. simpl. split; [apply lookup_insert_eq|done].
    + eapply loadIncludes_keepsMarks in Hload.
      * apply Hload. simpl. apply lookup_insert_eq.
      * intros st0 p st1 err0. apply LoadFiles_with_keepsMarks.
        intros ? ? ? ?. apply LoadFile_keepsMarks.
  - injection Hload as <- <-. simpl. split; [apply lookup_insert_eq|eauto].
Qed.

Lemma loadIncludes_error loadFiles st includes st' err :
  loader.loadIncludes loadFiles st includes = Ok (st', Some err) →
  ∃ st0 include st1, include ∈ includes ∧ loadFiles st0 include = Ok (st1, Some err).
Proof.
  revert st. induction includes as [|p includes IH]; intros st; simpl; [done|].
  destruct (loadFiles st p) as [[st1 [e|]]| | |] eqn:Hp; try done; simpl.
  - intros [= <- <-]. exists st, p, st1. split; [by left|done].
  - intros (st0 & q & st2 & Hq & Hl)%IH. exists st0, q, st2. split; [by right|done].
Qed.

(** X16. Where [ExpandUser] and [Glob] do not fail, [LoadFile] returns
    an error only for the requested file itself: it was not recorded
    yet and cannot be opened, or its content does not parse. A file
    reached through an include that is missing or malformed never makes
    the load fail. *)
Theorem LoadFile_fails_only_for_the_file_itself fuel fs st filename st' err :
  (∀ p, ∃ q, ExpandUser p = Success q) →
  (∀ p, ∃ l, Glob fs p = Success l) →
  loader.LoadFile ExpandUser Unmarshal Glob fuel fs st filename = Ok (st', Some err) →
  ∃ filepath,
    ExpandUser filename = Success filepath ∧
    loader.includedFiles st.1 !! filepath = None ∧
    match config.lines fs !! filepath with
    | None => True
    | Some source => (Unmarshal source (loader.document st.1)).2 = Some err
    end.
Proof.
  intros Hexpand Hglob Hload. destruct fuel as [|fuel]; [done|]. simpl in Hload.
  destruct (Hexpand filename) as [filepath Hpath]. rewrite Hpath in Hload.
  exists filepath. split; [done|].
  case_decide as Hin; [done|].
  split; [by apply eq_None_not_Some|].
  destruct (config.lines fs !! filepath) as [source|]; [|done].
  unfold loader.LoadConfig in Hload. cbn [loader.document loader.set_includedFiles] in Hload.
  destruct (Unmarshal source (loader.document st.1)) as [d [e|]]; simpl in *.
  - by injection Hload as _ ->.
  - exfalso. apply loadIncludes_error in Hload as (st0 & p & st1 & _ & Hp).
    unfold loader.LoadFiles_with in Hp.
    destruct (Hexpand p) as [q Hq]. rewrite Hq in Hp.
    destruct (Hglob q) as [l Hl]. rewrite Hl in Hp.
    destruct (loader.loadMatches _ st0 l) as [[c bin]| | |]; try done. simpl in Hp.
    case_decide; [done|].
    destruct (Hexpand (loader.ASSHBinaryPath (loader.document c))) as [b Hb].
    by rewrite Hb in Hp.
Qed.

(** *** Termination of the loader *)

Lemma pendingFiles_mono universe st st' :
  keepsMarks st st' → pendingFiles universe st'.1 ⊆ pendingFiles universe st.1.
Proof.
  intros Hkeep f. unfold loader.pendingFiles. rewrite !elem_of_filter. intros [Hp Hf].
  split; [|done]. unfold loader.pending in *. destruct (ExpandUser f) as [q|]; [|done].
  apply bool_decide_eq_true in Hp. apply bool_decide_eq_true.
  destruct (loader.includedFiles st.1 !! q) as [b|] eqn:Hq; [|done].
  apply Hkeep in Hq. congruence.
Qed.

Lemma pendingFiles_size universe st st' :
  keepsMarks st st' →
  size (pendingFiles universe st'.1) ≤ size (pendingFiles universe st.1).
Proof. intros Hkeep. by apply subseteq_size, pendingFiles_mono. Qed.

Section Termination.

Variable universe : gset string.
Variable fs : config.FileSystem.

Hypothesis Glob_universe :
  ∀ pattern filepaths f, Glob fs pattern = Success filepaths → f ∈ filepaths → f ∈ universe.

Variable loadFile : loader.State → string → outcome (loader.State * option error).
Variable n : nat.

Hypothesis loadFile_keepsMarks :
  ∀ st f st' err, loadFile st f = Ok (st', err) → keepsMarks st st'.
Hypothesis loadFile_returns :
  ∀ st f, f ∈ universe → size (pendingFiles universe st.1) < n →
          ∃ r, loadFile st f = Ok r.

Lemma loadMatches_returns st filepaths :
  (∀ f, f ∈ filepaths → f ∈ universe) →
  size (pendingFiles universe st.1) < n →
  ∃ st', loader.loadMatches loadFile st filepaths = Ok st'.
Proof.
  revert st. induction filepaths as [|f filepaths IH]; intros st Hin Hsize; simpl; [eauto|].
  destruct (loadFile_returns st f) as [[st1 err] Hf]; [apply Hin; by left|done|].
  rewrite Hf. simpl. apply IH.
  - intros f' Hf'. apply Hin. by right.
  - apply loadFile_keepsMarks, (pendingFiles_size universe) in Hf. lia.
Qed.

Lemma LoadFiles_with_returns st pattern :
  size (pendingFiles universe st.1) < n →
  ∃ r, LoadFiles_with' loadFile fs st pattern = Ok r.
Proof.
  intros Hsize. unfold loader.LoadFiles_with.
  destruct (ExpandUser pattern) as [expanded|e]; [|eauto].
  destruct (Glob fs expanded) as [filepaths|e] eqn:Hglob; [|eauto].
  destruct (loadMatches_returns st filepaths) as [[c bin] ->]; [|done|].
  { intros f Hf. by eapply Glob_universe. }
  simpl. case_decide; [eauto|]. destruct (ExpandUser _); eauto.
Qed.

Lemma loadIncludes_returns st includes :
  size (pendingFiles universe st.1) < n →
  ∃ r, loader.loadIncludes (LoadFiles_with' loadFile fs) st includes = Ok r.
Proof.
  revert st. induction includes as [|p includes IH]; intros st Hsize; simpl; [eauto|].
  destruct (LoadFiles_with_returns st p) as [[st1 [e|]] Hp]; [done|..];
    rewrite Hp; simpl; [eauto|].
  apply IH. apply LoadFiles_with_keepsMarks, (pendingFiles_size universe) in Hp; [lia|].
  apply loadFile_keepsMarks.
Qed.

End Termination.

(** A nested [LoadFile], on a file the globs can return, returns when
    the fuel exceeds the number of files still pending. *)
Lemma LoadFile_returns_pending universe fs fuel st f :
  (∀ pattern filepaths f, Glob fs pattern = Success filepaths → f ∈ filepaths →
                          f ∈ universe) →
  f ∈ universe →
  size (pendingFiles universe st.1) < fuel →
  ∃ r, LoadFile' fuel fs st f = Ok r.
Proof.
  intros Hglob. revert st f.
  induction fuel as [|fuel IH]; intros st f Hf Hsize; [lia|].
  simpl. destruct (ExpandUser f) as [filepath|e] eqn:Hpath; [|eauto].
  case_decide as Hin; [eauto|].
  destruct (config.lines fs !! filepath) as [source|]; [|eauto].
  pose proof (LoadConfig_includedFiles
                (loader.set_includedFiles
                   (<[filepath := false]> (loader.includedFiles st.1)) st.1) source) as Hcfg.
  destruct (LoadConfig' _ source) as [c [e|]]; [eauto|]. simpl in Hcfg.
  eapply (loadIncludes_returns universe fs Hglob (LoadFile' fuel fs) fuel).
  - intros ? ? ? ?. apply LoadFile_keepsMarks.
  - intros st0 f0 Hf0 Hs0. by apply IH.
  - simpl. apply Nat.lt_le_trans with (size (pendingFiles universe st.1)); [|lia].
    apply subset_size. apply strict_spec_alt. split.
    + intros f'. unfold loader.pendingFiles. rewrite !elem_of_filter. intros [Hp Hf'].
      split; [|done]. unfold loader.pending in *. simpl in Hp.
      destruct (ExpandUser f') as [q|]; [|done].
      apply bool_decide_eq_true in Hp. apply bool_decide_eq_true.
      rewrite Hcfg in Hp.
      destruct (decide (q = filepath)) as [->|Hne].
      * by rewrite lookup_insert_eq in Hp.
      * by rewrite !lookup_insert_ne in Hp.
    + intros Heq. assert (f ∈ pendingFiles universe st.1) as Hpend.
      { apply elem_of_filter. split; [|done]. unfold loader.pending. rewrite Hpath.
        apply bool_decide_eq_true. by apply eq_None_not_Some. }
      rewrite <- Heq in Hpend. apply elem_of_filter in Hpend as [Hp _].
      unfold loader.pending in Hp. rewrite Hpath in Hp. simpl in Hp.
      apply bool_decide_eq_true in Hp. by rewrite lookup_insert_eq in Hp.
Qed.

(** More fuel does not change a result. *)
Lemma loadMatches_mono (loadFile1 loadFile2 : loader.State → string → outcome _) st filepaths r :
  (∀ st f r, loadFile1 st f = Ok r → loadFile2 st f = Ok r) →
  loader.loadMatches loadFile1 st filepaths = Ok r →
  loader.loadMatches loadFile2 st filepaths = Ok r.
Proof.
  intros Hle. revert st. induction filepaths as [|f filepaths IH]; intros st; simpl; [done|].
  destruct (loadFile1 st f) as [[st1 e]| | |] eqn:Hf; try done.
  rewrite (Hle _ _ _ Hf). simpl. apply IH.
Qed.

Lemma LoadFiles_with_mono (loadFile1 loadFile2 : loader.State → string → outcome _)
    fs st pattern r :
  (∀ st f r, loadFile1 st f = Ok r → loadFile2 st f = Ok r) →
  LoadFiles_with' loadFile1 fs st pattern = Ok r →
  LoadFiles_with' loadFile2 fs st pattern = Ok r.
Proof.
  intros Hle. unfold loader.LoadFiles_with.
  destruct (ExpandUser pattern) as [expanded|e]; [|done].
  destruct (Glob fs expanded) as [filepaths|e]; [|done].
  destruct (loader.loadMatches loadFile1 st filepaths) as [[c bin]| | |] eqn:Hm; try done.
  by rewrite (loadMatches_mono _ _ _ _ _ Hle Hm).
Qed.

Lemma loadIncludes_mono (loadFiles1 loadFiles2 : loader.State → string → outcome _)
    st includes r :
  (∀ st p r, loadFiles1 st p = Ok r → loadFiles2 st p = Ok r) →
  loader.loadIncludes loadFiles1 st includes = Ok r →
  loader.loadIncludes loadFiles2 st includes = Ok r.
Proof.
  intros Hle. revert st. induction includes as [|p includes IH]; intros st; simpl; [done|].
  destruct (loadFiles1 st p) as [[st1 [e|]]| | |] eqn:Hp; try done;
    rewrite (Hle _ _ _ Hp); simpl; [done|apply IH].
Qed.

Lemma LoadFile_fuel_S fuel fs st filename r :
  LoadFile' fuel fs st filename = Ok r → LoadFile' (S fuel) fs st filename = Ok r.
Proof.
  revert st filename r. induction fuel as [|fuel IH]; intros st filename r; [done|].
  intros Hload. cbn [loader.LoadFile] in Hload |- *.
  destruct (ExpandUser filename) as [filepath|e]; [|done].
  case_decide; [done|].
  destruct (config.lines fs !! filepath) as [source|]; [|done].
  destruct (LoadConfig' _ source) as [c [e|]]; [done|].
  eapply loadIncludes_mono; [|exact Hload].
  intros st0 p r0. apply LoadFiles_with_mono. intros st1 f r1. apply IH.
Qed.

Lemma LoadFile_fuel_add fuel more fs st filename r :
  LoadFile' fuel fs st filename = Ok r → LoadFile' (fuel + more) fs st filename = Ok r.
Proof.
  intros Hload. induction more as [|more IH].
  - by rewrite Nat.add_0_r.
  - rewrite Nat.add_succ_r. by apply LoadFile_fuel_S.
Qed.

(** X17. Loading terminates whatever the includes, also when files
    include each other or themselves: if every file a glob can return
    lies in a finite set, [LoadFile] returns once the fuel exceeds the
    size of that set by two (each nested [LoadFile] either returns at
    once, through the anti-loop protection, or records a path that was
    not recorded before), and the result is the same for every larger
    fuel. *)
Theorem LoadFile_returns (universe : gset string) fuel fs st filename :
  (∀ pattern filepaths f, Glob fs pattern = Success filepaths → f ∈ filepaths →
                          f ∈ universe) →
  size universe + 1 < fuel →
  ∃ st' err, ∀ more,
    loader.LoadFile ExpandUser Unmarshal Glob (fuel + more) fs st filename = Ok (st', err).
Proof.
  intros Hglob Hfuel.
  assert (∃ r, LoadFile' fuel fs st filename = Ok r) as [[st' err] Hload].
  { destruct fuel as [|fuel]; [lia|]. simpl.
    destruct (ExpandUser filename) as [filepath|e]; [|eauto].
    case_decide; [eauto|].
    destruct (config.lines fs !! filepath) as [source|]; [|eauto].
    destruct (LoadConfig' _ source) as [c [e|]]; [eauto|].
    eapply (loadIncludes_returns universe fs Hglob (LoadFile' fuel fs) fuel).
    - intros ? ? ? ?. apply LoadFile_keepsMarks.
    - intros st0 f0 Hf0 Hs0. by apply LoadFile_returns_pending with universe.
    - apply Nat.le_lt_trans with (size universe); [|lia].
      apply subseteq_size. intros f' [_ Hf']%elem_of_filter. done. }
  exists st', err. intros more. by apply LoadFile_fuel_add.
Qed.

(** *** Naming *)

Lemma applyMissingNames_named c : loader.named (loader.document (loader.applyMissingNames c)).
Proof.
  split; intros key entry.
  - rewrite applyMissingNames_Hosts.
    destruct (loader.Hosts (loader.document c) !! key); [|done].
    intros [= <-]. by eexists.
  - rewrite applyMissingNames_Templates.
    destruct (loader.Templates (loader.document c) !! key); [|done].
    intros [= <-]. by eexists.
Qed.

Section Naming.

Hypothesis Unmarshal_atomic :
  ∀ source d d' e, Unmarshal source d = (d', Some e) → d' = d.

Abbreviation namedState := (λ st : loader.State, loader.named (loader.document st.1)).

Lemma loadMatches_named loadFile st filepaths st' :
  (∀ st0 f st1 err, namedState st0 → loadFile st0 f = Ok (st1, err) → namedState st1) →
  namedState st →
  loader.loadMatches loadFile st filepaths = Ok st' → namedState st'.
Proof.
  intros Hfile. revert st. induction filepaths as [|f filepaths IH]; intros st Hst; simpl.
  - by intros [= <-].
  - destruct (loadFile st f) as [[st1 err]| | |] eqn:Hf; try done. simpl.
    apply IH. by eapply Hfile.
Qed.

Lemma LoadFiles_with_named loadFile fs st pattern st' err :
  (∀ st0 f st1 err, namedState st0 → loadFile st0 f = Ok (st1, err) → namedState st1) →
  namedState st →
  LoadFiles_with' loadFile fs st pattern = Ok (st', err) → namedState st'.
Proof.
  intros Hfile Hst. unfold loader.LoadFiles_with.
  destruct (ExpandUser pattern) as [expanded|e]; [|by intros [= <- _]].
  destruct (Glob fs expanded) as [filepaths|e]; [|by intros [= <- _]].
  destruct (loader.loadMatches loadFile st filepaths) as [[c bin]| | |] eqn:Hm; try done.
  apply loadMatches_named in Hm; [|done..]. simpl.
  case_decide; [by intros [= <- _]|].
  destruct (ExpandUser _); by intros [= <- _].
Qed.

Lemma loadIncludes_named loadFiles st includes st' err :
  (∀ st0 p st1 err, namedState st0 → loadFiles st0 p = Ok (st1, err) → namedState st1) →
  namedState st →
  loader.loadIncludes loadFiles st includes = Ok (st', err) → namedState st'.
Proof.
  intros Hfiles. revert st. induction includes as [|p includes IH]; intros st Hst; simpl.
  - by intros [= <- _].
  - destruct (loadFiles st p) as [[st1 [e|]]| | |] eqn:Hp; try done; simpl.
    + intros [= <- _]. by eapply Hfiles.
    + apply IH. by eapply Hfiles.
Qed.

Lemma LoadFile_named fuel fs st filename st' err :
  namedState st → LoadFile' fuel fs st filename = Ok (st', err) → namedState st'.
Proof.
  revert st filename st' err.
  induction fuel as [|fuel IH]; intros st filename st' err Hst; [done|].
  simpl. destruct (ExpandUser filename) as [filepath|e]; [|by intros [= <- _]].
  case_decide as Hin; [by intros [= <- _]|].
  destruct (config.lines fs !! filepath) as [source|]; [|by intros [= <- _]].
  unfold loader.LoadConfig. cbn [loader.document loader.set_includedFiles].
  destruct (Unmarshal source (loader.document st.1)) as [d [e|]] eqn:Hparse.
  - intros [= <- _]. simpl. by rewrite (Unmarshal_atomic _ _ _ _ Hparse).
  - apply loadIncludes_named.
    + intros st0 p st1 err0. apply LoadFiles_with_named. apply IH.
    + apply applyMissingNames_named.
Qed.

End Naming.

(** X19. Where the deserializer leaves the configuration untouched when
    it fails, the configuration that a successful [Open] returns has no
    nil entry, and every host and every template carries its key as
    [pattern] and as [name] (a template is marked as one), whatever was
    included and whichever included files failed to load: the
    precondition of the lookups, that a host's [pattern] is its key,
    holds of every configuration the loader returns. *)
Theorem Open_names_every_entry fuel fs bin path c bin' :
  (∀ source d d' e, Unmarshal source d = (d', Some e) → d' = d) →
  loader.Open ExpandUser Unmarshal Glob fuel fs bin path = Ok (Success c, bin') →
  loader.named (loader.document c) ∧
  spec.patternsAreKeys (loader.freeze c) ∧
  (∀ key, is_Some (config.Hosts (loader.freeze c) !! key)
          ↔ is_Some (loader.Hosts (loader.document c) !! key)).
Proof.
  intros Hatomic. unfold loader.Open.
  destruct (LoadFile' fuel fs (loader.New, bin) path) as [[[c1 bin1] [e|]]| | |] eqn:Hload;
    try done.
  simpl. intros [= <- <-].
  apply (LoadFile_named Hatomic) in Hload; [|by split]. simpl in Hload.
  split; [done|]. destruct Hload as [Hhosts _]. split.
  - intros key host. unfold loader.freeze. cbn [config.Hosts]. rewrite lookup_omap.
    destruct (loader.Hosts (loader.document c1) !! key) as [entry|] eqn:Hk; [|done].
    destruct (Hhosts _ _ Hk) as (h & -> & Hp & _). by intros [= <-].
  - intros key. unfold loader.freeze. cbn [config.Hosts]. rewrite lookup_omap.
    destruct (loader.Hosts (loader.document c1) !! key) as [entry|] eqn:Hk.
    + destruct (Hhosts _ _ Hk) as (h & -> & _). simpl. split; eauto.
    + simpl. split; intros [? ?]; done.
Qed.

End LoaderFacts.

Lemma LoadFile_marks_witness :
  ∃ st' err,
    loader.LoadFile examples.plainPath examples2.parse examples2.globDir 4
      examples2.selfInclude (loader.New, "assh") "/etc/assh/a.yml" = Ok (st', err) ∧
    loader.includedFiles st'.1 !! "/etc/assh/a.yml" = Some true.
Proof.
  assert (∃ st' err,
            loader.LoadFile examples.plainPath examples2.parse examples2.globDir 4
              examples2.selfInclude (loader.New, "assh") "/etc/assh/a.yml" = Ok (st', err))
    as (st' & err & Hload) by (eexists _, _; vm_compute; reflexivity).
  exists st', err. split; [exact Hload|].
  exact (proj2 (LoadFile_marks examples.plainPath examples2.parse examples2.globDir 4
                  examples2.selfInclude (loader.New, "assh") "/etc/assh/a.yml"
                  "/etc/assh/a.yml" st' err eq_refl Hload) eq_refl).
Defined.

Lemma LoadFile_fails_only_for_the_file_itself_witness :
  ∃ st' err,
    loader.LoadFile examples.plainPath examples2.parse examples2.globDir 1
      examples2.selfInclude (loader.New, "assh") "/etc/assh/none.yml"
    = Ok (st', Some err) ∧
    ∃ filepath,
      examples.plainPath "/etc/assh/none.yml" = Success filepath ∧
      loader.includedFiles loader.New !! filepath = None ∧
      match config.lines examples2.selfInclude !! filepath with
      | None => True
      | Some source => (examples2.parse source (loader.document loader.New)).2 = Some err
      end.
Proof.
  assert (∃ st' err,
            loader.LoadFile examples.plainPath examples2.parse examples2.globDir 1
              examples2.selfInclude (loader.New, "assh") "/etc/assh/none.yml"
            = Ok (st', Some err))
    as (st' & err & Hload) by (eexists _, _; vm_compute; reflexivity).
  exists st', err. split; [exact Hload|].
  apply (LoadFile_fails_only_for_the_file_itself examples.plainPath examples2.parse
           examples2.globDir 1 examples2.selfInclude (loader.New, "assh")
           "/etc/assh/none.yml" st' err).
  - intros p. by exists p.
  - intros p. by eexists.
  - exact Hload.
Defined.

Lemma LoadFile_returns_witness :
  ∃ st' err, ∀ more,
    loader.LoadFile examples.plainPath examples2.parse examples2.globDir (4 + more)
      examples2.selfInclude (loader.New, "assh") "/etc/assh/a.yml" = Ok (st', err).
Proof.
  apply (LoadFile_returns examples.plainPath examples2.parse examples2.globDir
           examples2.universe 4 examples2.selfInclude (loader.New, "assh")
           "/etc/assh/a.yml").
  - intros pattern filepaths f [= <-] Hf. unfold examples2.universe.
    apply elem_of_cons in Hf as [->|Hf]; [by apply elem_of_union_l, elem_of_singleton|].
    apply list_elem_of_singleton in Hf as ->. by apply elem_of_union_r, elem_of_singleton.
  - vm_compute. lia.
Defined.

Lemma Open_names_every_entry_witness :
  ∃ c bin',
    loader.Open examples.plainPath examples2.parse examples2.globDir 4
      examples2.selfInclude "assh" "/etc/assh/a.yml" = Ok (Success c, bin') ∧
    spec.patternsAreKeys (loader.freeze c).
Proof.
  assert (∃ c bin',
            loader.Open examples.plainPath examples2.parse examples2.globDir 4
              examples2.selfInclude "assh" "/etc/assh/a.yml" = Ok (Success c, bin'))
    as (c & bin' & Hopen) by (eexists _, _; vm_compute; reflexivity).
  exists c, bin'. split; [exact Hopen|].
  apply (Open_names_every_entry examples.plainPath examples2.parse examples2.globDir 4
           examples2.selfInclude "assh" "/etc/assh/a.yml" c bin'); [|exact Hopen].
  intros source d d' e Hparse. destruct source; [|done]. by injection Hparse as <- _.
Defined.

(** ** The wrapper command *)

Section WrapperFacts.

Import config.

Variable ord : MapOrder.
Variable ExpandString : Host → string → string.
Variable ExpandUser : string → result string.
Variable VERSION : string.
Variable Host_WriteSSHConfigTo : Host → string.

Abbreviation sameFrame := persist.sameFrame.

Lemma addKnownHost_frame fuel c target c' :
  config.addKnownHost ord ExpandString fuel c target = Ok c' → sameFrame c c'.
Proof.
  unfold config.addKnownHost.
  destruct (config.GetHostSafe ord ExpandString fuel c target) as [host| | |]; try done.
  simpl. destruct (Hosts c !! pattern host) as [inst|] eqn:Hinst; intros [= <-]; [|done].
  split_and!; [done..|]. intros key. simpl.
  destruct (decide (key = pattern host)) as [->|Hne].
  - rewrite lookup_insert_eq, Hinst. split; eauto.
  - by rewrite lookup_insert_ne.
Qed.

Lemma addKnownHosts_frame fuel c known c' :
  persist.addKnownHosts ord ExpandString fuel c known = Ok c' → sameFrame c c'.
Proof.
  revert c. induction known as [|target known IH]; intros c; simpl.
  - by intros [= <-].
  - destruct (config.addKnownHost ord ExpandString fuel c target) as [c1| | |] eqn:H1;
      try done. simpl.
    intros (Hp & Hi & Hk)%IH. apply addKnownHost_frame in H1 as (Hp1 & Hi1 & Hk1).
    split_and!; [congruence..|]. intros key. by rewrite Hk, Hk1.
Qed.

Lemma LoadKnownHosts_frame fuel c fs c' err :
  persist.LoadKnownHosts ord ExpandString ExpandUser fuel c fs = Ok (c', err) →
  sameFrame c c'.
Proof.
  unfold persist.LoadKnownHosts.
  destruct (ExpandUser (ASSHKnownHostFile c)) as [path|e]; [|by intros [= <- _]].
  destruct (lines fs !! path) as [known|]; [|by intros [= <- _]].
  destruct (persist.addKnownHosts ord ExpandString fuel c known) as [c1| | |] eqn:Hall;
    try done.
  simpl. intros [= <- _]. by eapply addKnownHosts_frame.
Qed.

(** X18. When the generated file does not exist, the wrapper called for a
    target that is an exact key of [Hosts] does not build it: the stat
    error makes [IsConfigOutdated] answer not outdated, the error is only
    logged, and [SaveSSHConfig] is not called. The files are as they were
    when the binary is executed, whatever the known-host cache held. *)
Theorem refresh_missing_output fuel conf fs target buildDate filepath conf1 err :
  gostrings.contains_byte "/" target = false →
  is_Some (Hosts conf !! target) →
  ExpandUser (sshConfigPath conf) = Success filepath →
  modTime fs !! filepath = None →
  persist.LoadKnownHosts ord ExpandString ExpandUser fuel conf fs = Ok (conf1, err) →
  commands.refresh ord ExpandString ExpandUser VERSION Host_WriteSSHConfigTo
    fuel conf fs target buildDate = Ok (conf1, fs).
Proof.
  intros Hbare Hkey Hpath Hstat Hload. unfold commands.refresh. rewrite Hload. simpl.
  apply LoadKnownHosts_frame in Hload as (Hp & _ & Hk).
  rewrite IsConfigOutdated_registered by (done || by apply Hk). simpl.
  unfold config.isSSHConfigOutdated, Stat. by rewrite Hp, Hpath, Hstat.
Qed.

End WrapperFacts.

Lemma refresh_missing_output_witness :
  commands.refresh order_forward examples.noExpand examples.plainPath examples.version
    examples.plainBlock 1 examples.threeLevels examples.sourceNewer "child" "today"
  = Ok (examples.threeLevels, examples.sourceNewer).
Proof.
  eapply (refresh_missing_output order_forward examples.noExpand examples.plainPath
            examples.version examples.plainBlock 1 examples.threeLevels
            examples.sourceNewer "child" "today" "~/.ssh/config").
  - reflexivity.
  - eexists. vm_compute. reflexivity.
  - reflexivity.
  - vm_compute. reflexivity.
  - vm_compute. reflexivity.
Defined.

(** ** Hook dispatcher *)

Section HooksFacts.

Context {RunArgs World : Type}.
Variables NewWriteDriver NewExecDriver NewDaemonDriver
  : string → result (hooks.HookDriver RunArgs World).

Abbreviation HookDriver := (hooks.HookDriver RunArgs World).
Abbreviation New := (hooks.New RunArgs World NewWriteDriver NewExecDriver NewDaemonDriver).
Abbreviation instantiate :=
  (hooks.instantiate RunArgs World NewWriteDriver NewExecDriver NewDaemonDriver).
Abbreviation InvokeAll :=
  (hooks.InvokeAll RunArgs World NewWriteDriver NewExecDriver NewDaemonDriver).
Abbreviation runAll := (hooks.runAll RunArgs World).
Abbreviation HookDrivers_Close := (hooks.HookDrivers_Close RunArgs World).

Lemma instantiate_first_failure (h : list string) (drivers : list HookDriver) :
  (∃ expr e, expr ∈ h ∧ New expr = Failure e) →
  ∃ pre expr post err,
    h = pre ++ expr :: post ∧
    Forall (λ x, ∃ d, New x = Success d) pre ∧
    New expr = Failure err ∧
    instantiate h drivers = Failure err.
Proof.
  revert drivers. induction h as [|x h IH]; intros drivers (expr & e & Hin & He).
  - by apply elem_of_nil in Hin.
  - destruct (New x) as [d|err] eqn:Hx.
    + assert (∃ expr e, expr ∈ h ∧ New expr = Failure e) as Hex.
      { apply elem_of_cons in Hin as [->|Hin]; [congruence|eauto]. }
      destruct (IH (drivers ++ [d]) Hex) as (pre & y & post & err & -> & Hpre & Hy & Hi).
      exists (x :: pre), y, post, err. split_and!; [done| |done|].
      * constructor; eauto.
      * simpl. by rewrite Hx.
    + exists [], x, h, err. split_and!; [done|constructor|done|].
      simpl. by rewrite Hx.
Qed.

Lemma runAll_trace (drivers : list HookDriver) i args w trace :
  ∃ k, k ≤ length drivers ∧
    (hooks.runAll RunArgs World drivers i args w trace).2
      = trace ++ (hooks.CallRun <$> seq i k) ∧
    ((hooks.runAll RunArgs World drivers i args w trace).1.1 ≠ None → 0 < k).
Proof.
  revert i w trace. induction drivers as [|d ds IH]; intros i w trace.
  - exists 0. simpl. rewrite app_nil_r. split_and!; [lia|done|done].
  - simpl. destruct (hooks.Run _ _ d args w) as [[err|] w'].
    + exists 1. simpl. split_and!; [lia|done|lia].
    + destruct (IH (S i) w' (trace ++ [hooks.CallRun i])) as (k & Hk & Htr & _).
      exists (S k). rewrite Htr. simpl. rewrite <- app_assoc. split_and!; [lia|done|lia].
Qed.

(** C6. If some expression of the hook list fails to instantiate,
    [InvokeAll] returns the error of the first such expression with no
    drivers, makes no [Run] call (the trace of calls is empty) and leaves
    the world as it was. *)
Theorem InvokeAll_instantiation_failure (h : list string) (args : RunArgs) (w : World) :
  (∃ expr e, expr ∈ h ∧ New expr = Failure e) →
  ∃ pre expr post err,
    h = pre ++ expr :: post ∧
    Forall (λ x, ∃ d, New x = Success d) pre ∧
    New expr = Failure err ∧
    InvokeAll h args w = (([], Some err), w, []).
Proof.
  intros Hfail.
  destruct (instantiate_first_failure h [] Hfail) as (pre & expr & post & err & ? & ? & ? & Hi).
  exists pre, expr, post, err. split_and!; try done.
  unfold hooks.InvokeAll. by rewrite Hi.
Qed.

(** C5 (amended). If every expression instantiates and a driver's [Run]
    fails, [InvokeAll] returns that error with a nil driver slice: the
    runs made are those of the drivers up to the failing one, and closing
    what [InvokeAll] returned calls [Close] on no driver. *)
Theorem InvokeAll_run_failure (h : list string) (args : RunArgs) (w : World)
    (drivers : list HookDriver) (err : error) (w' : World) (trace : list hooks.call) :
  instantiate h [] = Success drivers →
  runAll drivers 0 args w [] = (Some err, w', trace) →
  InvokeAll h args w = (([], Some err), w', trace) ∧
  (∃ k, 0 < k ≤ length drivers ∧ trace = hooks.CallRun <$> seq 0 k) ∧
  HookDrivers_Close (InvokeAll h args w).1.1.1 w' = ([], w', []).
Proof.
  intros Hi Hr.
  assert (InvokeAll h args w = ([], Some err, w', trace)) as Heq.
  { unfold hooks.InvokeAll. by rewrite Hi, Hr. }
  split_and!; [done| |by rewrite Heq].
  destruct (runAll_trace drivers 0 args w []) as (k & Hk & Htr & Hpos).
  rewrite Hr in Htr, Hpos. simpl in *. exists k. split; [|done].
  split; [by apply Hpos|done].
Qed.

End HooksFacts.

Lemma InvokeAll_instantiation_failure_witness :
  (∃ expr e, expr ∈ ["write /tmp/x"; "unknownkind foo"] ∧ examples.logNew expr = Failure e) ∧
  ∃ pre expr post err,
    ["write /tmp/x"; "unknownkind foo"] = pre ++ expr :: post ∧
    Forall (λ x, ∃ d, examples.logNew x = Success d) pre ∧
    examples.logNew expr = Failure err ∧
    examples.logInvokeAll ["write /tmp/x"; "unknownkind foo"] tt [] = (([], Some err), [], []).
Proof.
  assert (∃ expr e, expr ∈ ["write /tmp/x"; "unknownkind foo"] ∧ examples.logNew expr = Failure e) as H.
  { exists "unknownkind foo", (Errorf "No such driver unknownkind").
    split; [set_solver | reflexivity]. }
  split; [exact H|].
  exact (InvokeAll_instantiation_failure _ _ _ _ tt [] H).
Defined.


Lemma InvokeAll_run_failure_witness :
  examples.logInvokeAll ["write /tmp/x"; "exec /bin/false"; "write /tmp/y"] tt []
  = (([], Some (Errorf "cannot run /bin/false")),
     ["run /tmp/x"; "run /bin/false"],
     [hooks.CallRun 0; hooks.CallRun 1]).
Proof.
  refine (proj1 (InvokeAll_run_failure _ _ _
                   ["write /tmp/x"; "exec /bin/false"; "write /tmp/y"] tt []
                   [examples.logDriver "/tmp/x" false;
                    examples.logDriver "/bin/false" true;
                    examples.logDriver "/tmp/y" false]
                   (Errorf "cannot run /bin/false")
                   ["run /tmp/x"; "run /bin/false"]
                   [hooks.CallRun 0; hooks.CallRun 1] _ _));
    reflexivity.
Defined.

(** C5, as stated, fails: three drivers are instantiated, the second fails
    to run, and [InvokeAll] returns no driver at all; closing what it
    returned calls [Close] on none of the three. *)
Lemma InvokeAll_drops_drivers_on_run_failure :
  examples.logInstantiate ["write /tmp/x"; "exec /bin/false"; "write /tmp/y"] []
  = Success [examples.logDriver "/tmp/x" false;
             examples.logDriver "/bin/false" true;
             examples.logDriver "/tmp/y" false] ∧
  examples.logInvokeAll ["write /tmp/x"; "exec /bin/false"; "write /tmp/y"] tt []
  = (([], Some (Errorf "cannot run /bin/false")),
     ["run /tmp/x"; "run /bin/false"],
     [hooks.CallRun 0; hooks.CallRun 1]) ∧
  hooks.HookDrivers_Close unit (list string)
    (examples.logInvokeAll ["write /tmp/x"; "exec /bin/false"; "write /tmp/y"] tt []).1.1.1
    ["run /tmp/x"; "run /bin/false"]
  = ([], ["run /tmp/x"; "run /bin/false"], []).
Proof. split_and!; reflexivity. Qed.
